(** * Bifurcation analysis of the Li-Rinzel astrocyte model

    Shallow embedding of [Biforcation] from
    [Astrocyte-Neuron_Interactions/Astrocyte/astrocyte.py] (lines 87-153)
    together with the NumPy / SciPy calls it is built from, and the
    properties of the sweep, of the relaxation window and of the
    extremum detector.

    Numbers.  The program computes with IEEE double precision values.
    They are modelled by exact rationals [Q]: every finite double is a
    rational, [np.greater] and [np.less] on finite doubles are the order
    of [Q], and the arithmetic of [np.linspace] and [np.arange] is taken
    without rounding.  NaN and the infinities are not modelled.  Because
    a rational has several representations, results of arithmetic are
    compared with [==] ([Qeq]); values that are only selected or copied
    (extrema picked out of a trajectory, the swept value broadcast over
    them) are compared with [=]. *)

From Stdlib Require Import List ZArith QArith Qround Qpower Lia Lqa Bool Arith Sorted.
Import ListNotations.

Local Open Scope Q_scope.

(** ** NumPy comparators and array helpers *)

Module Numpy.

(** [np.greater(x1, x2)] is [x1 > x2]. *)
Definition greater (x1 x2 : Q) : bool := negb (Qle_bool x1 x2).

(** [np.less(x1, x2)] is [x1 < x2]. *)
Definition less (x1 x2 : Q) : bool := negb (Qle_bool x2 x1).

(** Element-wise application of a binary ufunc to two arrays of the
    same shape. *)
Fixpoint ufunc2 {A B C : Type} (f : A -> B -> C) (xs : list A) (ys : list B) : list C :=
  match xs, ys with
  | x :: xs', y :: ys' => f x y :: ufunc2 f xs' ys'
  | _, _ => []
  end.

(** [np.arange(0, n)] as integer locations. *)
Definition arange_locs (n : nat) : list Z := map Z.of_nat (seq 0 n).

(** [data.take(j, mode='clip')] for one location: a location below 0
    reads element 0, one above [len - 1] reads the last element.  The
    default of [nth] is never read: locations are only produced for a
    non-empty array. *)
Definition take_clip (data : list Q) (j : Z) : Q :=
  let last := (Z.of_nat (length data) - 1)%Z in
  nth (Z.to_nat (Z.max 0 (Z.min j last))) data 0.

Fixpoint nonzero_from (k : nat) (results : list bool) : list nat :=
  match results with
  | [] => []
  | b :: rest => if b then k :: nonzero_from (S k) rest else nonzero_from (S k) rest
  end.

(** [np.nonzero(results)] of a one-dimensional boolean array: the
    locations holding [True], in increasing order. *)
Definition nonzero (results : list bool) : list nat := nonzero_from 0 results.

(** [X[idx]] with an integer index array (the locations come from
    [nonzero] over an array of the same length, so they are in range). *)
Definition fancy_index (X : list Q) (idx : list nat) : list Q :=
  map (fun j => nth j X 0) idx.

(** Basic slice [X[start:]] of a one-dimensional array: a negative
    [start] counts from the end, and the bound is clamped into
    [0, len(X)]. *)
Definition slice_from {A : Type} (start : Z) (X : list A) : list A :=
  let n := Z.of_nat (length X) in
  let s := if (start <? 0)%Z then Z.max (start + n) 0 else Z.min start n in
  skipn (Z.to_nat s) X.

End Numpy.

(** ** The extremum detector: [scipy.signal.argrelextrema]

    [argrelextrema] is imported from SciPy (line 12) and called at lines
    141-142 with the defaults [axis=0], [order=1], [mode='clip'].  It is
    library code; the definitions below follow the library's algorithm
    for these defaults: compare every sample with its two neighbours,
    reading the neighbours with clipped locations, and return the
    locations where both comparisons hold. *)

Module Scipy.
Import Numpy.

Definition boolrelextrema (comparator : Q -> Q -> bool) (data : list Q) : list bool :=
  let datalen := length data in
  let locs := arange_locs datalen in
  let results := repeat true datalen in
  let main := map (take_clip data) locs in
  (* for shift in range(1, order + 1), with order = 1 *)
  let plus := map (fun l => take_clip data (l + 1)%Z) locs in
  let minus := map (fun l => take_clip data (l - 1)%Z) locs in
  let results := ufunc2 andb results (ufunc2 comparator main plus) in
  let results := ufunc2 andb results (ufunc2 comparator main minus) in
  results.

Definition argrelextrema (data : list Q) (comparator : Q -> Q -> bool) : list nat :=
  nonzero (boolrelextrema comparator data).

End Scipy.

(** The contract of the extremum detector in the words of the
    specification: the interior locations [1 <= i <= n - 2] whose sample
    compares strictly against both neighbours. *)
Definition strict_local_extrema (cmp : Q -> Q -> bool) (S : list Q) : list nat :=
  filter (fun i => (1 <=? i)%nat && (i + 2 <=? length S)%nat
                   && cmp (nth i S 0) (nth (i - 1) S 0)
                   && cmp (nth i S 0) (nth (i + 1) S 0))
         (seq 0 (length S)).

(** A comparator that never holds between a value and itself, as
    [np.greater] and [np.less]. *)
Definition irreflexive (cmp : Q -> Q -> bool) : Prop := forall x, cmp x x = false.

(** ** [np.linspace] and [np.arange] *)

(** Python exceptions the sweep can end with. *)
Inductive exn : Type :=
| ValueError          (* np.linspace: the number of samples must be non-negative *)
| ZeroDivisionError   (* np.arange with a zero step, on Python numbers: the length
                         (stop - start) / step cannot be computed; with NumPy
                         scalars the failure is an error of the length check *)
| CollaboratorError (code : nat).  (* raised inside the integrator or the model *)

Module Grid.

(** [y[-1] = stop]: overwrite the last element. *)
Definition set_last (y : list Q) (stop : Q) : list Q :=
  match y with
  | [] => []
  | _ :: _ => removelast y ++ [stop]
  end.

(** [np.linspace(start, stop, num)] with [endpoint=True]: a negative
    [num] raises; otherwise [arange(0, num) * step + start] with
    [step = (stop - start) / (num - 1)], the last element overwritten by
    [stop] when [num > 1]. *)
Definition linspace (start stop : Q) (num : Z) : exn + list Q :=
  if (num <? 0)%Z then inl ValueError
  else
    let div := (num - 1)%Z in
    let delta := stop - start in
    let y := map (fun k => inject_Z (Z.of_nat k)) (seq 0 (Z.to_nat num)) in
    let y :=
      if (0 <? div)%Z then
        let step := delta / inject_Z div in
        if Qeq_bool step 0
        then map (fun v => v / inject_Z div * delta) y
        else map (fun v => v * step) y
      else map (fun v => v * delta) y in
    let y := map (fun v => v + start) y in
    let y := if (1 <? num)%Z then set_last y stop else y in
    inr y.

(** [np.arange(start, stop, step)] on floats: [ceil((stop - start) / step)]
    samples [start + k * step], none when that count is not positive; a
    zero step raises.  The count and the samples are those of exact
    arithmetic: in doubles the quotient can round up to the next
    integer, and the program then has one more sample, at or just past
    [stop].  What is proved below uses a grid only as the list handed to
    the integrator and through its length. *)
Definition arange (start stop step : Q) : exn + list Q :=
  if Qeq_bool step 0 then inl ZeroDivisionError
  else
    let length := Z.to_nat (Qceiling ((stop - start) / step)) in
    inr (map (fun k => start + inject_Z (Z.of_nat k) * step) (seq 0 length)).

End Grid.

(** ** The integrator collaborator and the sweep engine *)

(** The state of the dynamical system: [X0 = np.array([0.2, 0.2])] fixes
    two components, so a row of the solution is a pair. *)
Definition State : Type := (Q * Q)%type.

(** [model(y, t, par)]: the vector field handed to the integrator. *)
Definition Model : Type := State -> Q -> Q -> State.

(** The table [odeint] returns: one row per time-grid point. *)
Definition Trajectory : Type := list State.

(** [scipy.integrate.odeint(model, X0, t, args=(i,))].  The integrator
    is not part of the program: it is an interface.  [World] is whatever
    state lives outside the engine (solver work areas, module globals
    read by the model); a call may read and change it, and may raise. *)
Class Integrator : Type := {
  World : Type;
  odeint : Model -> State -> list Q -> Q -> World -> (exn + Trajectory) * World
}.

(** An integrator is deterministic when the trajectory it returns is a
    function of its arguments alone. *)
Definition deterministic (Int : Integrator) : Prop :=
  forall model X0 t i w w',
    fst (odeint model X0 t i w) = fst (odeint model X0 t i w').

(** The integrator contract: one row per time-grid entry. *)
Definition row_per_time_point (Int : Integrator) : Prop :=
  forall model X0 t i w sol,
    fst (odeint model X0 t i w) = inr sol -> length sol = length t.

Section Engine.
Context {Int : Integrator}.
Import Numpy Scipy Grid.

(** Computations of the engine: they run in a world and end with an
    exception or a value. *)
Definition M (A : Type) : Type := World -> (exn + A) * World.

Definition ret {A : Type} (a : A) : M A := fun w => (inr a, w).

Definition bind {A B : Type} (c : M A) (k : A -> M B) : M B :=
  fun w => match c w with
           | (inr a, w') => k a w'
           | (inl e, w') => (inl e, w')
           end.

(** A library call that touches no outside state. *)
Definition lift {A : Type} (r : exn + A) : M A := fun w => (r, w).

Notation "x <- c ;; k" := (bind c (fun x => k))
  (at level 61, c at next level, right associativity).

(** The two result lists, both grown by [append] in the loop. *)
Definition Lists : Type := (list (list Q) * list (list Q))%type.

(** Lines 136-150: the body of the loop for the swept value [i]. *)
Definition sweep_body (model : Model) (X0 : State) (t : list Q) (t_relax : Z)
    (lists : Lists) (i : Q) : M Lists :=
  let '(I_list, Bif_list) := lists in
  sol <- odeint model X0 t i ;;
  let X := map fst sol in
  let Y := map snd sol in
  let X := slice_from t_relax X in
  let max_loc := argrelextrema X greater in
  let min_loc := argrelextrema X less in
  let X_max := fancy_index X max_loc in
  let X_min := fancy_index X min_loc in
  let Bif_val := X_max ++ X_min in
  let I_x := map (fun _ => i) (seq 0 (length Bif_val)) in
  ret (I_list ++ [I_x], Bif_list ++ [Bif_val]).

(** [for i in values: body]. *)
Fixpoint for_each (values : list Q) (body : Lists -> Q -> M Lists) (lists : Lists) : M Lists :=
  match values with
  | [] => ret lists
  | i :: rest => lists' <- body lists i ;; for_each rest body lists'
  end.

(** Line 130: [np.array([0.2, 0.2])], the state every integration
    starts from. *)
Definition initial_state : State := (2 # 10, 2 # 10).

(** Lines 87-153. *)
Definition Biforcation (model : Model) (par_start par_stop : Q) (par_tot : Z)
    (t0 t_stop dt : Q) (t_relax : Z) : M Lists :=
  t <- lift (arange t0 t_stop dt) ;;
  let X0 : State := initial_state in
  let I_list : list (list Q) := [] in
  let Bif_list : list (list Q) := [] in
  values <- lift (linspace par_start par_stop par_tot) ;;
  for_each values (sweep_body model X0 t t_relax) (I_list, Bif_list).

(** The keyword defaults of the signature (line 87): [par_tot=300],
    [t0=0.], [t_stop=500.], [dt=2E-2], [t_relax=-5000]. *)
Definition Biforcation_defaults (model : Model) (par_start par_stop : Q) : M Lists :=
  Biforcation model par_start par_stop 300 0 500 (2 # 100) (-5000).

(** *** Names for the parts of one iteration *)

(** Lines 137 and 139: the sequence handed to the extremum detector. *)
Definition relaxed_window (t_relax : Z) (sol : Trajectory) : list Q :=
  slice_from t_relax (map fst sol).

(** Lines 141-146: maxima values, then minima values. *)
Definition maxima_values (X : list Q) : list Q := fancy_index X (argrelextrema X greater).
Definition minima_values (X : list Q) : list Q := fancy_index X (argrelextrema X less).
Definition extremum_values (X : list Q) : list Q := maxima_values X ++ minima_values X.

(** Line 147: the swept value, once per extremum. *)
Definition broadcast (i : Q) (Bif_val : list Q) : list Q :=
  map (fun _ => i) (seq 0 (length Bif_val)).

(** The integrations of a sweep on their own: one call per swept value,
    in order, each from [X0] over the grid [t]; the first exception ends
    the sequence. *)
Fixpoint integrate_sweep (model : Model) (X0 : State) (t : list Q) (values : list Q)
    : M (list Trajectory) :=
  match values with
  | [] => ret []
  | i :: rest =>
      sol <- odeint model X0 t i ;;
      sols <- integrate_sweep model X0 t rest ;;
      ret (sol :: sols)
  end.

(** The dataset assembled from the trajectories of a sweep. *)
Definition dataset_of (t_relax : Z) (values : list Q) (sols : list Trajectory) : Lists :=
  (ufunc2 (fun i sol => broadcast i (extremum_values (relaxed_window t_relax sol))) values sols,
   map (fun sol => extremum_values (relaxed_window t_relax sol)) sols).

End Engine.

(** ** Words of the specification used in the statements *)

(** The trailing [k] samples of a sequence. *)
Definition trailing {A : Type} (k : nat) (X : list A) : list A :=
  skipn (length X - k) X.

(** The sweep specifications the specification calls invalid:
    [par_tot < 1], or [par_stop < par_start] with [par_tot > 1], or
    [dt <= 0], or [t_stop <= t0]. *)
Definition invalid_sweep_specification (par_start par_stop : Q) (par_tot : Z)
    (t0 t_stop dt : Q) : bool :=
  (par_tot <? 1)%Z
  || (Numpy.less par_stop par_start && (1 <? par_tot)%Z)
  || Qle_bool dt 0
  || Qle_bool t_stop t0.

(** An entry of a returned sequence: a float, or a list of floats. *)
Inductive pyentry : Type :=
| PyFloat (x : Q)
| PyFloats (items : list Q).

(** The entries of a list [Biforcation] returns: one list of floats
    per [append]. *)
Definition py_nested (ls : list (list Q)) : list pyentry := map PyFloats ls.

(** The entries of a flat sequence of floats. *)
Definition py_flat (l : list Q) : list pyentry := map PyFloat l.

(** The flat dataset of (parameter value, extremum value) pairs of a
    sweep: the pairs of each swept value, concatenated in sweep order. *)
Definition flat_pairs (t_relax : Z) (values : list Q)
    (sols : list Trajectory) : list (Q * Q) :=
  concat (Numpy.ufunc2
            (fun i sol => map (pair i) (extremum_values (relaxed_window t_relax sol)))
            values sols).

(** Results collected in order, up to the first exception. *)
Fixpoint sequence_results {A : Type} (rs : list (exn + A)) : exn + list A :=
  match rs with
  | [] => inr []
  | inl e :: _ => inl e
  | inr a :: rest =>
      match sequence_results rest with
      | inl e => inl e
      | inr l => inr (a :: l)
      end
  end.

(** ** A fixed-step integrator and a model to run the engine on *)

Module Euler.

(** One explicit Euler step of size [h] along the derivative [d]. *)
Definition advance (h : Q) (d x : State) : State :=
  (Qred (fst x + h * fst d), Qred (snd x + h * snd d)).

Fixpoint steps (f : Model) (par : Q) (x : State) (tk : Q) (rest : list Q) : Trajectory :=
  match rest with
  | [] => [x]
  | tn :: rest' => x :: steps f par (advance (tn - tk) (f x tk par) x) tn rest'
  end.

(** The states at the grid points, one row per point. *)
Definition solve (f : Model) (X0 : State) (t : list Q) (par : Q) : Trajectory :=
  match t with
  | [] => []
  | t0 :: rest => steps f par X0 t0 rest
  end.

(** As an integrator whose outside state counts the calls made. *)
Definition integrator : Integrator :=
  {| World := nat;
     odeint := fun f X0 t par calls => (inr (solve f X0 t par), S calls) |}.

(** An integrator that leaks: it adds the number of earlier calls to
    the first component of every row. *)
Definition leaky : Integrator :=
  {| World := nat;
     odeint := fun f X0 t par calls =>
       (inr (map (fun r => (fst r + inject_Z (Z.of_nat calls), snd r)) (solve f X0 t par)),
        S calls) |}.

End Euler.

(** A harmonic oscillator with stiffness [par]: [x' = y], [y' = - par x]. *)
Definition oscillator : Model := fun X _ par => (snd X, - par * fst X).

(** An Euler integrator that refuses stiffness above [limit]: it
    raises instead of returning a trajectory, and counts the call. *)
Definition refusing_integrator (limit : Q) : Integrator :=
  {| World := nat;
     odeint := fun f X0 t par calls =>
       if Qle_bool par limit
       then (inr (Euler.solve f X0 t par), S calls)
       else (inl (CollaboratorError 1), S calls) |}.

(** A sequence that never decreases, or never increases. *)
Definition monotone (X : list Q) : Prop :=
  (forall i, (S i < length X)%nat -> nth i X 0 <= nth (S i) X 0)
  \/ (forall i, (S i < length X)%nat -> nth (S i) X 0 <= nth i X 0).

(** ** The Li-Rinzel model (lines 14-85) *)

Module Astrocyte.

(** The module-level constants [LiRinzel] and [LiRinzel_nunc] read
    (assigned at lines 167-177). *)
Record Globals : Type := {
  v1 : Q; v2 : Q; v3 : Q;
  d1 : Q; d2 : Q; d3 : Q; d5 : Q;
  C0 : Q; K3 : Q; c1 : Q; a2 : Q
}.

(** Lines 167-177, with [K3 = args.K3]. *)
Definition script_globals (K3 : Q) : Globals :=
  {| v1 := 6; v2 := 11 # 100; v3 := 9 # 10;
     d1 := 13 # 100; d2 := 1049 # 1000; d3 := 9434 # 10000; d5 := 8234 # 100000;
     C0 := 2; K3 := K3; c1 := 185 # 1000; a2 := 2 # 10 |}.

(** Lines 14-49.  Where a denominator is zero the program computes an
    infinity or a NaN; the rationals have neither ([x / 0] is [0]
    here), so every statement about [LiRinzel] is made where the
    denominators are not zero. *)
Definition LiRinzel (g : Globals) : Model := fun X t I =>
  let '(C, h) := X in
  let Q2 := d2 g * ((I + d1 g) / (I + d3 g)) in
  let m_inf := (I / (I + d1 g)) * (C / (C + d5 g)) in
  let h_inf := Q2 / (Q2 + C) in
  let tau_h := 1 / (a2 g * (Q2 + C)) in
  let J_leak := v2 g * (C0 g - (1 + c1 g) * C) in
  let J_pump := (v3 g * C ^ 2) / (K3 g ^ 2 + C ^ 2) in
  let J_chan := v1 g * (m_inf ^ 3) * (h ^ 3) * (C0 g - (1 + c1 g) * C) in
  (J_chan + J_leak - J_pump, (h_inf - h) / tau_h).

(** Line 81, for one sample [C] of [C_nunc]: the first nullcline. *)
Definition h_nunc1 (g : Globals) (I C : Q) : Q :=
  let Q2 := d2 g * ((I + d1 g) / (I + d3 g)) in
  Q2 / (Q2 + C).

(** Lines 82-83, for one sample [C] of [C_nunc]: the value the program
    raises to the power [1/3] to get the second nullcline (as for
    [LiRinzel], meaningful where its denominators are not zero). *)
Definition h_nunc2_cubed (g : Globals) (I C : Q) : Q :=
  (((v3 g * C ^ 2) / (K3 g ^ 2 + C ^ 2)) - v2 g * (C0 g - (1 + c1 g) * C))
  / (v1 g * (((I / (I + d1 g)) * (C / (C + d5 g))) ^ 3) * (C0 g - (1 + c1 g) * C)).

(** Lines 51-85: the samples of [C] and the two nullclines over them
    ([I] is the module-level [args.I]).  The second nullcline is a cube
    root, which the rationals do not have: the third array holds the
    cubes of the values the program returns. *)
Definition LiRinzel_nunc (g : Globals) (I C_start C_stop : Q) (steps : Z)
    : exn + (list Q * list Q * list Q) :=
  match Grid.linspace C_start C_stop steps with
  | inl e => inl e
  | inr C_nunc =>
      inr (C_nunc, map (h_nunc1 g I) C_nunc, map (h_nunc2_cubed g I) C_nunc)
  end.

(** The constants are rates, affinities and concentrations: positive. *)
Definition positive (g : Globals) : Prop :=
  0 < v1 g /\ 0 < v2 g /\ 0 < v3 g
  /\ 0 < d1 g /\ 0 < d2 g /\ 0 < d3 g /\ 0 < d5 g
  /\ 0 < C0 g /\ 0 < K3 g /\ 0 < c1 g /\ 0 < a2 g.

End Astrocyte.

(** ** Event code of the synapses and of the astrocytes
    ([gliotrasmission_closedloop.py], [NA_net.py]) *)

Module Gliotransmission.

(** The variables of one synapse that the spike code reads or writes. *)
Record Synapse : Type := {
  u_S : Q; x_S : Q; Y_S : Q; Gamma_S : Q; r_S : Q
}.

(** The constants the spike code reads. *)
Record SynapseConstants : Type := {
  U_0__star : Q; alpha : Q; rho_c : Q; Y_T : Q
}.

(** [syn_action], run for a synapse at each presynaptic spike
    (closed loop lines 91-97, network lines 154-160). *)
Definition syn_action (k : SynapseConstants) (s : Synapse) : Synapse :=
  let U_0 := (1 - Gamma_S s) * U_0__star k + alpha k * Gamma_S s in
  let u_S' := u_S s + U_0 * (1 - u_S s) in
  let r_S' := u_S' * x_S s in
  let x_S' := x_S s - r_S' in
  let Y_S' := Y_S s + rho_c k * Y_T k * r_S' in
  {| u_S := u_S'; x_S := x_S'; Y_S := Y_S'; Gamma_S := Gamma_S s; r_S := r_S' |}.

(** The variables of one astrocyte that the release code reads or
    writes. *)
Record Release : Type := { G_A : Q; x_A : Q }.

(** The constants the release code reads. *)
Record ReleaseConstants : Type := { rho_e : Q; G_T : Q; U_A : Q }.

(** [astro_release], the reset run when an astrocyte crosses the
    calcium threshold (network lines 231-234). *)
Definition astro_release (k : ReleaseConstants) (a : Release) : Release :=
  let G_A' := G_A a + rho_e k * G_T k * U_A k * x_A a in
  let x_A' := x_A a - U_A k * x_A a in
  {| G_A := G_A'; x_A := x_A' |}.

(** [n] releases in a row, with no recovery in between. *)
Fixpoint releases (k : ReleaseConstants) (n : nat) (a : Release) : Release :=
  match n with
  | O => a
  | S n' => releases k n' (astro_release k a)
  end.

End Gliotransmission.

(** Linear decay at rate [par]: [x' = - par x], [y' = - par y]. *)
Definition decay : Model := fun X _ par => (- par * fst X, - par * snd X).

(** ** The lattice of the network script ([NA_net.py]) *)

Module Network.

(** [np.arange(stop)]: the numbers 0, 1, ... below [stop]. *)
Definition arange_to (stop : Q) : list Q :=
  map (fun k => inject_Z (Z.of_nat k)) (seq 0 (Z.to_nat (Qceiling stop))).

(** [np.meshgrid(x, y)]: two tables with one row per entry of [y] and
    one column per entry of [x]. *)
Definition meshgrid (x y : list Q) : list (list Q) * list (list Q) :=
  (map (fun _ => x) y, map (fun v => map (fun _ => v) x) y).

(** Network lines 121-131: the coordinates given to the [N_e]
    excitatory neurons on a square of side [size].  [int(sqrt(N_e))] is
    the integer square root; dividing by it when it is 0 raises. *)
Definition neuron_positions (N_e : nat) (size : Q) : exn + (list Q * list Q) :=
  let N_rows_exc := Nat.sqrt N_e in
  if (N_rows_exc =? 0)%nat then inl ZeroDivisionError
  else
    let N_cols_exc := inject_Z (Z.of_nat N_e) / inject_Z (Z.of_nat N_rows_exc) in
    let grid_dist := size / N_cols_exc in
    let x := arange_to (inject_Z (Z.of_nat N_rows_exc)) in
    let y := arange_to N_cols_exc in
    let '(XX, YY) := meshgrid x y in
    inr (map (fun v => v * grid_dist) (firstn N_e (concat XX)),
         map (fun v => v * grid_dist) (firstn N_e (concat YY))).
End Network.

(** ** Properties of the extremum detector *)

Section ExtremumDetector.
Import Numpy Scipy.

Lemma ufunc2_map {A B C D : Type} (f : B -> C -> D) (g : A -> B) (h : A -> C) (l : list A) :
  ufunc2 f (map g l) (map h l) = map (fun x => f (g x) (h x)) l.
Proof.
  induction l as [|a l IH]; simpl; [reflexivity|]. now rewrite IH.
Qed.

Lemma ufunc2_all_true (l : list bool) :
  ufunc2 andb (repeat true (length l)) l = l.
Proof.
  induction l as [|b l IH]; simpl; [reflexivity|]. now rewrite IH.
Qed.

Lemma nonzero_from_filter (f : nat -> bool) (n k : nat) :
  nonzero_from k (map f (seq k n)) = filter f (seq k n).
Proof.
  revert k. induction n as [|n IH]; intros k; simpl; [reflexivity|].
  rewrite IH. reflexivity.
Qed.

Lemma take_clip_inside (data : list Q) (i : nat) :
  (i < length data)%nat -> take_clip data (Z.of_nat i) = nth i data 0.
Proof.
  intros Hi. unfold take_clip. f_equal. lia.
Qed.

Lemma take_clip_next (data : list Q) (i : nat) :
  (i < length data)%nat ->
  take_clip data (Z.of_nat i + 1) =
  nth (if (i + 2 <=? length data)%nat then i + 1 else i)%nat data 0.
Proof.
  intros Hi. unfold take_clip. f_equal.
  destruct (Nat.leb_spec (i + 2) (length data)); lia.
Qed.

Lemma take_clip_prev (data : list Q) (i : nat) :
  (i < length data)%nat ->
  take_clip data (Z.of_nat i - 1) = nth (i - 1) data 0.
Proof.
  intros Hi. unfold take_clip. f_equal. lia.
Qed.

(** The detector as one pass over the locations. *)
Lemma argrelextrema_filter (cmp : Q -> Q -> bool) (data : list Q) :
  argrelextrema data cmp =
  filter (fun i => cmp (nth i data 0) (take_clip data (Z.of_nat i + 1))
                   && cmp (nth i data 0) (take_clip data (Z.of_nat i - 1)))
         (seq 0 (length data)).
Proof.
  unfold argrelextrema, boolrelextrema, nonzero, arange_locs.
  rewrite !map_map, !ufunc2_map.
  set (n := length data).
  replace (repeat true n)
    with (repeat true (length (map (fun x : nat =>
            cmp (take_clip data (Z.of_nat x)) (take_clip data (Z.of_nat x + 1))) (seq 0 n))))
    by now rewrite length_map, length_seq.
  rewrite ufunc2_all_true, ufunc2_map.
  rewrite <- nonzero_from_filter. f_equal.
  apply map_ext_in. intros i Hi. apply in_seq in Hi.
  rewrite take_clip_inside by (subst n; lia). reflexivity.
Qed.

Lemma greater_irreflexive : irreflexive greater.
Proof.
  intros x. unfold greater. apply negb_false_iff, Qle_bool_iff, Qle_refl.
Qed.

Lemma less_irreflexive : irreflexive less.
Proof.
  intros x. unfold less. apply negb_false_iff, Qle_bool_iff, Qle_refl.
Qed.

Lemma greater_spec (x y : Q) : greater x y = true <-> y < x.
Proof.
  unfold greater. rewrite negb_true_iff. split.
  - intros H. apply Qnot_le_lt. intros Hle. apply Qle_bool_iff in Hle. congruence.
  - intros H. destruct (Qle_bool x y) eqn:E; [|reflexivity].
    apply Qle_bool_iff in E. exfalso. exact (Qlt_not_le _ _ H E).
Qed.

Lemma less_spec (x y : Q) : less x y = true <-> x < y.
Proof.
  unfold less. rewrite negb_true_iff. split.
  - intros H. apply Qnot_le_lt. intros Hle. apply Qle_bool_iff in Hle. congruence.
  - intros H. destruct (Qle_bool y x) eqn:E; [|reflexivity].
    apply Qle_bool_iff in E. exfalso. exact (Qlt_not_le _ _ H E).
Qed.

(** With an irreflexive comparator the clipped reads at the two ends
    compare a sample with itself, so the detector computes the contract
    of the specification. *)
Lemma argrelextrema_contract (cmp : Q -> Q -> bool) (S : list Q) :
  irreflexive cmp -> argrelextrema S cmp = strict_local_extrema cmp S.
Proof.
  intros Hirr. rewrite argrelextrema_filter. unfold strict_local_extrema.
  apply filter_ext_in. intros i Hi. apply in_seq in Hi.
  rewrite take_clip_next, take_clip_prev by lia.
  destruct (Nat.leb_spec 1 i) as [H1|H1];
    destruct (Nat.leb_spec (i + 2) (length S)) as [H2|H2]; simpl.
  - rewrite andb_comm. reflexivity.
  - rewrite Hirr. reflexivity.
  - replace (i - 1)%nat with i by lia. rewrite Hirr. apply andb_false_r.
  - rewrite Hirr. reflexivity.
Qed.

Lemma strict_local_extrema_In (cmp : Q -> Q -> bool) (S : list Q) (i : nat) :
  In i (strict_local_extrema cmp S) <->
  (1 <= Z.of_nat i <= Z.of_nat (length S) - 2)%Z
  /\ cmp (nth i S 0) (nth (i - 1) S 0) = true
  /\ cmp (nth i S 0) (nth (i + 1) S 0) = true.
Proof.
  unfold strict_local_extrema. rewrite filter_In, in_seq, !andb_true_iff.
  rewrite !Nat.leb_le. split.
  - intros [_ [[[H1 H2] H3] H4]]. repeat split; try assumption; lia.
  - intros [[H1 H2] [H3 H4]]. repeat split; try assumption; lia.
Qed.

Lemma nonzero_from_increasing (results : list bool) :
  forall k, StronglySorted lt (nonzero_from k results)
            /\ Forall (fun j => (k <= j)%nat) (nonzero_from k results).
Proof.
  induction results as [|b rest IH]; intros k; simpl.
  - split; constructor.
  - destruct (IH (S k)) as [Hs Hf]. destruct b.
    + split.
      * constructor; [exact Hs|]. eapply Forall_impl; [|exact Hf]. simpl. intros; lia.
      * constructor; [lia|]. eapply Forall_impl; [|exact Hf]. simpl. intros; lia.
    + split; [exact Hs|]. eapply Forall_impl; [|exact Hf]. simpl. intros; lia.
Qed.

(** The detector reports locations in increasing (time) order. *)
Lemma argrelextrema_increasing (cmp : Q -> Q -> bool) (data : list Q) :
  StronglySorted lt (argrelextrema data cmp).
Proof.
  unfold argrelextrema, nonzero. apply nonzero_from_increasing.
Qed.

End ExtremumDetector.

Section ExtremumDetectorClaims.
Import Numpy Scipy.

Lemma strict_local_extrema_short (cmp : Q -> Q -> bool) (S : list Q) :
  (length S < 3)%nat -> strict_local_extrema cmp S = [].
Proof.
  intros Hn. destruct (strict_local_extrema cmp S) as [|i l] eqn:E; [reflexivity|].
  assert (Hin : In i (strict_local_extrema cmp S)) by (rewrite E; left; reflexivity).
  apply strict_local_extrema_In in Hin. lia.
Qed.

(** C1.  The extremum detector reports as strict local maxima exactly
    the interior locations [1 <= i <= n - 2] whose sample is greater
    than both neighbours, and as strict local minima exactly those whose
    sample is less than both; the two ends are never reported, a sample
    equal to a neighbour is never reported, and a sequence shorter than
    three samples has no extremum. *)
Theorem argrelextrema_strict_interior (S : list Q) :
  let n := length S in
  (forall i, In i (argrelextrema S greater) <->
     (1 <= Z.of_nat i <= Z.of_nat n - 2)%Z
     /\ nth i S 0 > nth (i - 1) S 0 /\ nth i S 0 > nth (i + 1) S 0)
  /\ (forall i, In i (argrelextrema S less) <->
     (1 <= Z.of_nat i <= Z.of_nat n - 2)%Z
     /\ nth i S 0 < nth (i - 1) S 0 /\ nth i S 0 < nth (i + 1) S 0)
  /\ argrelextrema S greater = strict_local_extrema greater S
  /\ argrelextrema S less = strict_local_extrema less S
  /\ (forall cmp, cmp = greater \/ cmp = less ->
        ~ In 0%nat (argrelextrema S cmp) /\ ~ In (n - 1)%nat (argrelextrema S cmp))
  /\ (forall cmp i, cmp = greater \/ cmp = less ->
        nth i S 0 == nth (i + 1) S 0 ->
        ~ In i (argrelextrema S cmp) /\ ~ In (i + 1)%nat (argrelextrema S cmp))
  /\ ((n < 3)%nat -> argrelextrema S greater = [] /\ argrelextrema S less = []).
Proof.
  intros n.
  pose proof (argrelextrema_contract greater S greater_irreflexive) as Hg.
  pose proof (argrelextrema_contract less S less_irreflexive) as Hl.
  assert (Hmax : forall i, In i (argrelextrema S greater) <->
     (1 <= Z.of_nat i <= Z.of_nat n - 2)%Z
     /\ nth i S 0 > nth (i - 1) S 0 /\ nth i S 0 > nth (i + 1) S 0).
  { intros i. rewrite Hg, strict_local_extrema_In, !greater_spec. reflexivity. }
  assert (Hmin : forall i, In i (argrelextrema S less) <->
     (1 <= Z.of_nat i <= Z.of_nat n - 2)%Z
     /\ nth i S 0 < nth (i - 1) S 0 /\ nth i S 0 < nth (i + 1) S 0).
  { intros i. rewrite Hl, strict_local_extrema_In, !less_spec. reflexivity. }
  split; [exact Hmax|]. split; [exact Hmin|].
  split; [exact Hg|]. split; [exact Hl|].
  split; [|split].
  - (* the two ends *)
    intros cmp [-> | ->]; split; intros Hin;
      (apply Hmax in Hin || apply Hmin in Hin); lia.
  - (* a sample equal to its right neighbour: neither is reported *)
    intros cmp i [-> | ->] Heq; split; intros Hin;
      (apply Hmax in Hin || apply Hmin in Hin);
      destruct Hin as [_ [Hprev Hnext]];
      replace (i + 1 - 1)%nat with i in * by lia;
      try (rewrite Heq in Hnext; exact (Qlt_irrefl _ Hnext));
      try (rewrite Heq in Hprev; exact (Qlt_irrefl _ Hprev)).
  - intros Hn. split.
    + rewrite Hg. now apply strict_local_extrema_short.
    + rewrite Hl. now apply strict_local_extrema_short.
Qed.

(** A run of C1 on a sequence with a plateau: the plateau [3, 3] is not
    reported, the ends are not reported. *)
Lemma argrelextrema_strict_interior_run :
  argrelextrema [5; 1; 3; 3; 0; 2; 1; 4] greater = [5]%nat
  /\ argrelextrema [5; 1; 3; 3; 0; 2; 1; 4] less = [1; 4; 6]%nat
  /\ argrelextrema [1; 2] greater = [] /\ argrelextrema [1; 2] less = [].
Proof.
  pose proof (argrelextrema_strict_interior [1; 2]) as H. simpl in H.
  destruct H as (_ & _ & _ & _ & _ & _ & Hshort).
  destruct Hshort as [H1 H2]; [lia|].
  repeat split; try assumption; vm_compute; reflexivity.
Defined.

(** C2 as written fails: the alternating sequence has two strict local
    minima, at locations 2 and 4. *)
Lemma alternating_sequence_has_minima :
  argrelextrema [0; 1; 0; 1; 0; 1; 0] less = [2; 4]%nat
  /\ argrelextrema [0; 1; 0; 1; 0; 1; 0] less <> [].
Proof.
  split; [vm_compute; reflexivity | vm_compute; discriminate].
Qed.

(** C2, amended.  On [0,1,0,1,0,1,0] the detector reports the maxima
    exactly at locations 1, 3, 5 and the minima exactly at locations 2, 4;
    on [0,1,2,3,2,1,0] it reports exactly one maximum, at location 3,
    and no minimum. *)
Theorem argrelextrema_test_sequences :
  argrelextrema [0; 1; 0; 1; 0; 1; 0] greater = [1; 3; 5]%nat
  /\ argrelextrema [0; 1; 0; 1; 0; 1; 0] less = [2; 4]%nat
  /\ argrelextrema [0; 1; 2; 3; 2; 1; 0] greater = [3]%nat
  /\ argrelextrema [0; 1; 2; 3; 2; 1; 0] less = [].
Proof.
  rewrite !argrelextrema_contract by (apply greater_irreflexive || apply less_irreflexive).
  repeat split; vm_compute; reflexivity.
Qed.

End ExtremumDetectorClaims.

(** ** Properties of the parameter grid *)

Section ParameterGrid.
Import Grid.

Lemma nth_map_seq {A : Type} (f : nat -> A) (n k : nat) (d : A) :
  (k < n)%nat -> nth k (map f (seq 0 n)) d = f k.
Proof.
  intros Hk. rewrite (nth_indep _ d (f 0%nat)) by now rewrite length_map, length_seq.
  rewrite (map_nth f (seq 0 n) 0%nat k), seq_nth by assumption. reflexivity.
Qed.

Lemma set_last_length (y : list Q) (stop : Q) : length (set_last y stop) = length y.
Proof.
  destruct y as [|a y]; [reflexivity|]. unfold set_last.
  rewrite removelast_firstn_len, length_app, length_firstn. simpl. lia.
Qed.

Lemma set_last_nth (y : list Q) (stop : Q) (k : nat) :
  (k < length y)%nat ->
  nth k (set_last y stop) 0 = if (k =? length y - 1)%nat then stop else nth k y 0.
Proof.
  intros Hk. destruct y as [|a y]; [simpl in Hk; lia|]. unfold set_last.
  rewrite removelast_firstn_len.
  assert (Hlen : length (firstn (pred (length (a :: y))) (a :: y)) = (length (a :: y) - 1)%nat)
    by (rewrite length_firstn; lia).
  destruct (Nat.eqb_spec k (length (a :: y) - 1)) as [E|E].
  - rewrite app_nth2 by lia. rewrite Hlen, E, Nat.sub_diag. reflexivity.
  - rewrite app_nth1 by lia. rewrite nth_firstn.
    destruct (Nat.ltb_spec k (pred (length (a :: y)))); [reflexivity | lia].
Qed.

(** The sweep values for [par_tot > 1], as a list. *)
Lemma linspace_values (start stop : Q) (num : Z) :
  (1 < num)%Z ->
  exists y, length y = Z.to_nat num
    /\ (forall k, (k < Z.to_nat num)%nat ->
          nth k y 0 == inject_Z (Z.of_nat k) * ((stop - start) / inject_Z (num - 1)) + start)
    /\ linspace start stop num = inr (set_last y stop).
Proof.
  intros Hnum. unfold linspace.
  replace (num <? 0)%Z with false by (symmetry; apply Z.ltb_ge; lia).
  replace (0 <? num - 1)%Z with true by (symmetry; apply Z.ltb_lt; lia).
  replace (1 <? num)%Z with true by (symmetry; apply Z.ltb_lt; lia).
  assert (Hdiv : ~ inject_Z (num - 1) == 0).
  { unfold Qeq, inject_Z. simpl. lia. }
  cbv zeta.
  destruct (Qeq_bool ((stop - start) / inject_Z (num - 1)) 0);
    rewrite !map_map; eexists; (split; [|split; [|reflexivity]]).
  - now rewrite length_map, length_seq.
  - intros k Hk. rewrite nth_map_seq by assumption. field. exact Hdiv.
  - now rewrite length_map, length_seq.
  - intros k Hk. rewrite nth_map_seq by assumption. reflexivity.
Qed.



End ParameterGrid.

(** ** Properties of the sweep engine *)

Section EngineProperties.
Context {Int : Integrator}.
Import Numpy Scipy Grid.

Lemma ufunc2_length {A B C : Type} (f : A -> B -> C) (xs : list A) (ys : list B) :
  length xs = length ys -> length (ufunc2 f xs ys) = length xs.
Proof.
  revert ys. induction xs as [|a xs IH]; intros [|b ys] Hlen; simpl in *; try lia.
  rewrite IH by lia. reflexivity.
Qed.

Lemma ufunc2_nth {A B C : Type} (f : A -> B -> C) (xs : list A) (ys : list B)
    (j : nat) (a : A) (b : B) (c : C) :
  length xs = length ys -> (j < length xs)%nat ->
  nth j (ufunc2 f xs ys) c = f (nth j xs a) (nth j ys b).
Proof.
  revert ys j. induction xs as [|x xs IH]; intros [|y ys] j Hlen Hj; simpl in *; try lia.
  destruct j as [|j]; [reflexivity|]. apply IH; lia.
Qed.

(** One iteration: an integration, then a pure analysis of its result. *)
Lemma sweep_body_run (model : Model) (t : list Q) (t_relax : Z)
    (I_list Bif_list : list (list Q)) (i : Q) (w : World) :
  sweep_body model initial_state t t_relax (I_list, Bif_list) i w =
  match odeint model initial_state t i w with
  | (inr sol, w') =>
      let Bif_val := extremum_values (relaxed_window t_relax sol) in
      (inr (I_list ++ [broadcast i Bif_val], Bif_list ++ [Bif_val]), w')
  | (inl e, w') => (inl e, w')
  end.
Proof.
  unfold sweep_body, bind. destruct (odeint model initial_state t i w) as [[e|sol] w']; reflexivity.
Qed.

(** The trajectories of a sweep are as many as the swept values. *)
Lemma integrate_sweep_length (model : Model) (t values : list Q) :
  forall w sols w',
    integrate_sweep model initial_state t values w = (inr sols, w') -> length sols = length values.
Proof.
  induction values as [|i rest IH]; intros w sols w' H; simpl in H.
  - inversion H. reflexivity.
  - unfold bind in H. destruct (odeint model initial_state t i w) as [[e|sol] w1]; [discriminate|].
    destruct (integrate_sweep model initial_state t rest w1) as [[e|sols1] w2] eqn:E; [discriminate|].
    inversion H; subst. simpl. f_equal. eapply IH. exact E.
Qed.

(** Every trajectory of a sweep is what the integrator returned for a
    call from the initial state over the grid [t]. *)
Lemma integrate_sweep_calls (model : Model) (t values : list Q) :
  forall w sols w',
    integrate_sweep model initial_state t values w = (inr sols, w') ->
    Forall2 (fun i sol => exists wi, fst (odeint model initial_state t i wi) = inr sol) values sols.
Proof.
  induction values as [|i rest IH]; intros w sols w' H; simpl in H.
  - inversion H. constructor.
  - unfold bind in H. destruct (odeint model initial_state t i w) as [[e|sol] w1] eqn:E0; [discriminate|].
    destruct (integrate_sweep model initial_state t rest w1) as [[e|sols1] w2] eqn:E; [discriminate|].
    inversion H; subst. constructor.
    + exists w. rewrite E0. reflexivity.
    + eapply IH. exact E.
Qed.

(** The loop, split into its integrations and the assembly of the two
    lists: the loop state carries nothing but the lists built so far. *)
Lemma for_each_run (model : Model) (t : list Q) (t_relax : Z) (values : list Q) :
  forall (I_list Bif_list : list (list Q)) (w : World),
    for_each values (sweep_body model initial_state t t_relax) (I_list, Bif_list) w =
    match integrate_sweep model initial_state t values w with
    | (inr sols, w') =>
        (inr (I_list ++ fst (dataset_of t_relax values sols),
              Bif_list ++ snd (dataset_of t_relax values sols)), w')
    | (inl e, w') => (inl e, w')
    end.
Proof.
  induction values as [|i rest IH]; intros I_list Bif_list w.
  - simpl. unfold ret. rewrite !app_nil_r. reflexivity.
  - cbn [for_each integrate_sweep]. unfold bind.
    rewrite sweep_body_run.
    destruct (odeint model initial_state t i w) as [[e|sol] w1]; [reflexivity|].
    cbv beta iota zeta. rewrite IH.
    destruct (integrate_sweep model initial_state t rest w1) as [[e|sols] w2]; [reflexivity|].
    unfold ret, dataset_of. simpl. rewrite <- !app_assoc. reflexivity.
Qed.

(** The whole engine: the time grid, the sweep values, the
    integrations, the assembly. *)
Lemma Biforcation_run (model : Model) (par_start par_stop : Q) (par_tot : Z)
    (t0 t_stop dt : Q) (t_relax : Z) (w : World) :
  Biforcation model par_start par_stop par_tot t0 t_stop dt t_relax w =
  match arange t0 t_stop dt with
  | inl e => (inl e, w)
  | inr t =>
      match linspace par_start par_stop par_tot with
      | inl e => (inl e, w)
      | inr values =>
          match integrate_sweep model initial_state t values w with
          | (inr sols, w') => (inr (dataset_of t_relax values sols), w')
          | (inl e, w') => (inl e, w')
          end
      end
  end.
Proof.
  unfold Biforcation, bind, lift.
  destruct (arange t0 t_stop dt) as [e|t]; [reflexivity|].
  destruct (linspace par_start par_stop par_tot) as [e|values]; [reflexivity|].
  rewrite for_each_run. reflexivity.
Qed.

(** A returned dataset comes from a time grid, a sweep and its
    trajectories. *)
Lemma Biforcation_returns (model : Model) (par_start par_stop : Q) (par_tot : Z)
    (t0 t_stop dt : Q) (t_relax : Z) (w : World) (lists : Lists) :
  fst (Biforcation model par_start par_stop par_tot t0 t_stop dt t_relax w) = inr lists ->
  exists t values sols,
    arange t0 t_stop dt = inr t
    /\ linspace par_start par_stop par_tot = inr values
    /\ fst (integrate_sweep model initial_state t values w) = inr sols
    /\ length sols = length values
    /\ lists = dataset_of t_relax values sols.
Proof.
  rewrite Biforcation_run. intros H.
  destruct (arange t0 t_stop dt) as [e|t]; [discriminate|].
  destruct (linspace par_start par_stop par_tot) as [e|values]; [discriminate|].
  destruct (integrate_sweep model initial_state t values w) as [[e|sols] w'] eqn:E; [discriminate|].
  simpl in H. inversion H; subst.
  exists t, values, sols. rewrite E. repeat split; try reflexivity.
  eapply integrate_sweep_length. exact E.
Qed.

Lemma broadcast_repeat (i : Q) (Bif_val : list Q) :
  broadcast i Bif_val = repeat i (length Bif_val).
Proof.
  unfold broadcast. generalize 0%nat.
  induction (length Bif_val) as [|n IH]; intros k; simpl; [reflexivity|].
  now rewrite IH.
Qed.

(** *** The slice [X[t_relax:]] *)

Lemma slice_from_negative {A : Type} (t_relax : Z) (X : list A) :
  (t_relax < 0)%Z -> (Z.abs t_relax <= Z.of_nat (length X))%Z ->
  slice_from t_relax X = trailing (Z.abs_nat t_relax) X.
Proof.
  intros Hneg Hle. unfold slice_from, trailing.
  replace (t_relax <? 0)%Z with true by (symmetry; apply Z.ltb_lt; lia).
  f_equal. lia.
Qed.

Lemma slice_from_clamps {A : Type} (t_relax : Z) (X : list A) :
  (t_relax < 0)%Z -> (Z.of_nat (length X) < Z.abs t_relax)%Z ->
  slice_from t_relax X = X.
Proof.
  intros Hneg Hgt. unfold slice_from.
  replace (t_relax <? 0)%Z with true by (symmetry; apply Z.ltb_lt; lia).
  replace (Z.to_nat (Z.max (t_relax + Z.of_nat (length X)) 0)) with 0%nat by lia.
  reflexivity.
Qed.

(** Outside the documented domain: a [t_relax >= 0] is an offset from
    the start, the slice drops that many leading samples. *)
Lemma slice_from_nonnegative {A : Type} (t_relax : Z) (X : list A) :
  (0 <= t_relax)%Z -> slice_from t_relax X = skipn (Z.to_nat t_relax) X.
Proof.
  intros Hpos. unfold slice_from.
  replace (t_relax <? 0)%Z with false by (symmetry; apply Z.ltb_ge; lia).
  destruct (Z.le_gt_cases t_relax (Z.of_nat (length X))) as [Hle|Hgt].
  - f_equal. lia.
  - rewrite !skipn_all2 by lia. reflexivity.
Qed.

Lemma trailing_spec {A : Type} (k : nat) (X : list A) :
  (k <= length X)%nat ->
  length (trailing k X) = k
  /\ X = firstn (length X - k) X ++ trailing k X.
Proof.
  intros Hk. unfold trailing. split.
  - rewrite length_skipn. lia.
  - symmetry. apply firstn_skipn.
Qed.

Lemma ufunc2_ext_Forall {A B C : Type} (f g : A -> B -> C) (xs : list A) (ys : list B) :
  Forall (fun y => forall x, f x y = g x y) ys -> ufunc2 f xs ys = ufunc2 g xs ys.
Proof.
  intros H. revert xs. induction H as [|y ys Hy _ IH]; intros [|x xs]; simpl; try reflexivity.
  rewrite Hy, IH. reflexivity.
Qed.

Lemma map_ext_Forall_list {A B : Type} (f g : A -> B) (l : list A) :
  Forall (fun a => f a = g a) l -> map f l = map g l.
Proof.
  induction 1 as [|a l Ha _ IH]; simpl; [reflexivity|]. now rewrite Ha, IH.
Qed.

(** The dataset when every window is rewritten by [view]. *)
Lemma dataset_of_windows (t_relax : Z) (view : Trajectory -> list Q)
    (values : list Q) (sols : list Trajectory) :
  Forall (fun sol => relaxed_window t_relax sol = view sol) sols ->
  dataset_of t_relax values sols =
  (ufunc2 (fun i sol => broadcast i (extremum_values (view sol))) values sols,
   map (fun sol => extremum_values (view sol)) sols).
Proof.
  intros H. unfold dataset_of. f_equal.
  - apply ufunc2_ext_Forall. eapply Forall_impl; [|exact H].
    simpl. intros sol -> i. reflexivity.
  - apply map_ext_Forall_list. eapply Forall_impl; [|exact H].
    simpl. intros sol ->. reflexivity.
Qed.

(** Under the integrator contract every trajectory of a sweep has one
    row per grid point. *)
Lemma integrate_sweep_rows (model : Model) (t values : list Q) (w : World)
    (sols : list Trajectory) :
  row_per_time_point Int ->
  fst (integrate_sweep model initial_state t values w) = inr sols ->
  Forall (fun sol => length sol = length t) sols.
Proof.
  intros Hrows H.
  destruct (integrate_sweep model initial_state t values w) as [r w'] eqn:E.
  simpl in H. subst r. apply integrate_sweep_calls in E.
  induction E as [|i sol values' sols' [wi Hi] _ IH]; constructor; [|exact IH].
  eapply Hrows. exact Hi.
Qed.

Lemma Biforcation_dataset (model : Model) (par_start par_stop : Q) (par_tot : Z)
    (t0 t_stop dt : Q) (t_relax : Z) (w : World)
    (t values : list Q) (sols : list Trajectory) :
  arange t0 t_stop dt = inr t ->
  linspace par_start par_stop par_tot = inr values ->
  fst (integrate_sweep model initial_state t values w) = inr sols ->
  fst (Biforcation model par_start par_stop par_tot t0 t_stop dt t_relax w)
  = inr (dataset_of t_relax values sols).
Proof.
  intros Ht Hv Hs. rewrite Biforcation_run, Ht, Hv.
  destruct (integrate_sweep model initial_state t values w) as [r w'].
  simpl in Hs. subst r. reflexivity.
Qed.

End EngineProperties.

(** ** The Euler integrator meets the integrator interface *)

Lemma euler_steps_length (f : Model) (par : Q) (rest : list Q) :
  forall x tk, length (Euler.steps f par x tk rest) = S (length rest).
Proof.
  induction rest as [|tn rest IH]; intros x tk; simpl; [reflexivity|].
  now rewrite IH.
Qed.

Lemma euler_row_per_time_point : row_per_time_point Euler.integrator.
Proof.
  intros model X0 t i w sol H. simpl in H. inversion H; subst.
  destruct t as [|t0 rest]; [reflexivity|]. simpl. apply euler_steps_length.
Qed.

Lemma euler_deterministic : deterministic Euler.integrator.
Proof.
  intros model X0 t i w w'. reflexivity.
Qed.

(** ** The time grid of the calls in the script *)

Lemma arange_length (t0 t_stop dt : Q) (t : list Q) :
  Grid.arange t0 t_stop dt = inr t ->
  length t = Z.to_nat (Qceiling ((t_stop - t0) / dt)).
Proof.
  unfold Grid.arange. destruct (Qeq_bool dt 0); [discriminate|].
  intros H. inversion H. now rewrite length_map, length_seq.
Qed.

(** The windows asked for at lines 212-218 ([t_stop] 400 with 17000 and
    15000 trailing samples, [t_stop] 700 with 10000) and the default
    window (500 with 5000) fit the grids of step 0.02 they are taken
    from: 20000, 35000 and 25000 points (in doubles at most one more). *)
Lemma script_windows_fit :
  Forall (fun call : Q * Z =>
            let (t_stop, t_relax) := call in
            exists t, Grid.arange 0 t_stop (2 # 100) = inr t
                      /\ (t_relax < 0)%Z
                      /\ (Z.abs t_relax <= Z.of_nat (length t))%Z)
         [(400, (-17000)%Z); (700, (-10000)%Z); (400, (-15000)%Z); (500, (-5000)%Z)].
Proof.
  repeat constructor;
    match goal with
    | |- exists t, Grid.arange ?a ?b ?c = _ /\ _ =>
        destruct (Grid.arange a b c) as [e|t] eqn:E; [discriminate E|];
        exists t; split; [reflexivity|]; split; [lia|];
        rewrite (arange_length _ _ _ _ E); vm_compute; discriminate
    end.
Qed.

(** ** The relaxation window *)

Section RelaxationWindow.
Context {Int : Integrator}.
Import Numpy Scipy Grid.

(** C4.  [t_relax] is a negative count of trailing samples.  With
    [abs(t_relax)] at most the number of time-grid points, and an
    integrator that returns one row per grid point, the sequence the
    extremum detector receives for every swept value is the trailing
    [abs(t_relax)] samples of the first component of that value's
    trajectory: the leading samples are dropped, the second component
    plays no part, and the window is taken whatever the trajectory
    looks like. *)
Theorem relaxed_window_trailing_samples
    (model : Model) (par_start par_stop : Q) (par_tot : Z) (t0 t_stop dt : Q)
    (t_relax : Z) (w : World) (t values : list Q) (sols : list Trajectory) :
  row_per_time_point Int ->
  arange t0 t_stop dt = inr t ->
  linspace par_start par_stop par_tot = inr values ->
  fst (integrate_sweep model initial_state t values w) = inr sols ->
  (t_relax < 0)%Z ->
  (Z.abs t_relax <= Z.of_nat (length t))%Z ->
  let k := Z.abs_nat t_relax in
  Forall (fun sol =>
            relaxed_window t_relax sol = trailing k (map fst sol)
            /\ length (relaxed_window t_relax sol) = k
            /\ map fst sol = firstn (length t - k) (map fst sol) ++ relaxed_window t_relax sol
            /\ (forall sol', map fst sol' = map fst sol ->
                  relaxed_window t_relax sol' = relaxed_window t_relax sol)) sols
  /\ fst (Biforcation model par_start par_stop par_tot t0 t_stop dt t_relax w)
     = inr (ufunc2 (fun i sol => broadcast i (extremum_values (trailing k (map fst sol))))
                   values sols,
            map (fun sol => extremum_values (trailing k (map fst sol))) sols).
Proof.
  intros Hrows Ht Hv Hs Hneg Hle k.
  pose proof (integrate_sweep_rows model t values w sols Hrows Hs) as Hlen.
  assert (Hwin : Forall (fun sol => relaxed_window t_relax sol = trailing k (map fst sol)) sols).
  { eapply Forall_impl; [|exact Hlen]. simpl. intros sol Hsol.
    unfold relaxed_window. apply slice_from_negative; [exact Hneg|].
    rewrite length_map. unfold Trajectory, State in *. rewrite Hsol. exact Hle. }
  split.
  - rewrite Forall_forall in *. intros sol Hin.
    pose proof (Hwin sol Hin) as Hw. pose proof (Hlen sol Hin) as Hl.
    unfold Trajectory, State in *.
    assert (Hk : (k <= length (map fst sol))%nat) by (rewrite length_map, Hl; subst k; lia).
    destruct (trailing_spec k (map fst sol) Hk) as [H1 H2].
    rewrite Hw. split; [reflexivity|]. split; [exact H1|]. split.
    + rewrite length_map, Hl in H2. exact H2.
    + intros sol' Heq. unfold relaxed_window. rewrite Heq. exact Hw.
  - rewrite (Biforcation_dataset model par_start par_stop par_tot t0 t_stop dt t_relax w
               t values sols Ht Hv Hs).
    f_equal. now apply dataset_of_windows.
Qed.

(** C10.  For a negative [t_relax] whose absolute value exceeds the
    number of samples the integrator produced, the slice [X[t_relax:]]
    is the whole first component: the engine returns normally and the
    extrema of every swept value are taken over its entire trajectory. *)
Theorem relaxed_window_clamps_to_trajectory
    (model : Model) (par_start par_stop : Q) (par_tot : Z) (t0 t_stop dt : Q)
    (t_relax : Z) (w : World) (t values : list Q) (sols : list Trajectory) :
  arange t0 t_stop dt = inr t ->
  linspace par_start par_stop par_tot = inr values ->
  fst (integrate_sweep model initial_state t values w) = inr sols ->
  (t_relax < 0)%Z ->
  Forall (fun sol => (Z.of_nat (length sol) < Z.abs t_relax)%Z) sols ->
  Forall (fun sol => relaxed_window t_relax sol = map fst sol) sols
  /\ fst (Biforcation model par_start par_stop par_tot t0 t_stop dt t_relax w)
     = inr (ufunc2 (fun i sol => broadcast i (extremum_values (map fst sol))) values sols,
            map (fun sol => extremum_values (map fst sol)) sols).
Proof.
  intros Ht Hv Hs Hneg Hover.
  assert (Hwin : Forall (fun sol => relaxed_window t_relax sol = map fst sol) sols).
  { eapply Forall_impl; [|exact Hover]. simpl. intros sol Hsol.
    unfold relaxed_window. apply slice_from_clamps; [exact Hneg|].
    rewrite length_map. exact Hsol. }
  split; [exact Hwin|].
  rewrite (Biforcation_dataset model par_start par_stop par_tot t0 t_stop dt t_relax w
             t values sols Ht Hv Hs).
  f_equal. now apply dataset_of_windows.
Qed.

End RelaxationWindow.

(** C4 on a run: ten grid points, the last eight samples analysed. *)
Lemma relaxed_window_trailing_samples_run :
  fst (@Biforcation Euler.integrator oscillator 2 3 2 0 10 1 (-8) 0%nat)
  = inr ([[2; 2]; [3; 3]], [[73 # 5; -11 # 5]; [128 # 5; -16 # 5]]).
Proof.
  pose proof (@relaxed_window_trailing_samples Euler.integrator oscillator 2 3 2 0 10 1 (-8)
                0%nat
                [0; 1; 2; 3; 4; 5; 6; 7; 8; 9]
                [2; 3]
                (Euler.solve oscillator initial_state [0; 1; 2; 3; 4; 5; 6; 7; 8; 9] 2
                 :: Euler.solve oscillator initial_state [0; 1; 2; 3; 4; 5; 6; 7; 8; 9] 3
                 :: nil)
                euler_row_per_time_point) as H.
  destruct H as [_ H]; [vm_compute; reflexivity .. | simpl; lia | simpl; lia |].
  rewrite H. vm_compute. reflexivity.
Defined.

(** C10 on a run: twelve trailing samples asked of ten. *)
Lemma relaxed_window_clamps_to_trajectory_run :
  fst (@Biforcation Euler.integrator oscillator 2 3 2 0 10 1 (-12) 0%nat)
  = inr ([[2; 2; 2]; [3; 3; 3]],
         [[2 # 5; 73 # 5; -11 # 5]; [2 # 5; 128 # 5; -16 # 5]]).
Proof.
  pose proof (@relaxed_window_clamps_to_trajectory Euler.integrator oscillator 2 3 2 0 10 1
                (-12) 0%nat
                [0; 1; 2; 3; 4; 5; 6; 7; 8; 9]
                [2; 3]
                (Euler.solve oscillator initial_state [0; 1; 2; 3; 4; 5; 6; 7; 8; 9] 2
                 :: Euler.solve oscillator initial_state [0; 1; 2; 3; 4; 5; 6; 7; 8; 9] 3
                 :: nil)) as H.
  destruct H as [_ H]; [vm_compute; reflexivity .. | simpl; lia | |].
  - repeat constructor.
  - rewrite H. vm_compute. reflexivity.
Defined.

(** ** The dataset *)

Section Dataset.
Context {Int : Integrator}.
Import Numpy Scipy Grid.

Lemma dataset_of_lengths (t_relax : Z) (values : list Q) (sols : list Trajectory) :
  length sols = length values ->
  length (fst (dataset_of t_relax values sols)) = length values
  /\ length (snd (dataset_of t_relax values sols)) = length values.
Proof.
  intros Hlen. unfold dataset_of. simpl. split.
  - apply ufunc2_length. symmetry. exact Hlen.
  - rewrite length_map. exact Hlen.
Qed.

Lemma nth_map_inside {A B : Type} (f : A -> B) (l : list A) (j : nat) (d : B) (a : A) :
  (j < length l)%nat -> nth j (map f l) d = f (nth j l a).
Proof.
  revert j. induction l as [|x l IH]; intros [|j] Hj; simpl in *; try lia.
  - reflexivity.
  - apply IH. lia.
Qed.

(** Entry [j] of the two lists. *)
Lemma dataset_of_nth (t_relax : Z) (values : list Q) (sols : list Trajectory) (j : nat) :
  length sols = length values -> (j < length values)%nat ->
  let Bif_val := extremum_values (relaxed_window t_relax (nth j sols [])) in
  nth j (snd (dataset_of t_relax values sols)) [] = Bif_val
  /\ nth j (fst (dataset_of t_relax values sols)) [] = broadcast (nth j values 0) Bif_val.
Proof.
  intros Hlen Hj Bif_val. unfold dataset_of. simpl. split.
  - rewrite (nth_map_inside _ sols j [] []) by lia. reflexivity.
  - rewrite (ufunc2_nth _ values sols j 0 []) by lia. reflexivity.
Qed.

(** C5.  In a returned dataset, entry [j] of the extremum list is
    the maxima values of the window [X] of swept value [j] followed by
    its minima values: the samples [X[i]] at the strict local maxima
    [i], listed by increasing [i] (time order), then the samples at the
    strict local minima, listed by increasing [i].  Entry [j] of the
    parameter list has the same length and holds swept value [j] at
    every position. *)
Theorem per_parameter_extremum_list
    (model : Model) (par_start par_stop : Q) (par_tot : Z) (t0 t_stop dt : Q)
    (t_relax : Z) (w : World) (I_list Bif_list : list (list Q)) :
  fst (Biforcation model par_start par_stop par_tot t0 t_stop dt t_relax w)
    = inr (I_list, Bif_list) ->
  exists t values sols,
    arange t0 t_stop dt = inr t
    /\ linspace par_start par_stop par_tot = inr values
    /\ fst (integrate_sweep model initial_state t values w) = inr sols
    /\ length sols = length values
    /\ length I_list = length values
    /\ length Bif_list = length values
    /\ forall j, (j < length values)%nat ->
         let p := nth j values 0 in
         let X := relaxed_window t_relax (nth j sols []) in
         exists max_loc min_loc : list nat,
           (forall i, In i max_loc <->
              (1 <= Z.of_nat i <= Z.of_nat (length X) - 2)%Z
              /\ nth i X 0 > nth (i - 1) X 0 /\ nth i X 0 > nth (i + 1) X 0)
           /\ (forall i, In i min_loc <->
              (1 <= Z.of_nat i <= Z.of_nat (length X) - 2)%Z
              /\ nth i X 0 < nth (i - 1) X 0 /\ nth i X 0 < nth (i + 1) X 0)
           /\ StronglySorted lt max_loc
           /\ StronglySorted lt min_loc
           /\ max_loc = argrelextrema X greater
           /\ min_loc = argrelextrema X less
           /\ nth j Bif_list []
              = map (fun i => nth i X 0) max_loc ++ map (fun i => nth i X 0) min_loc
           /\ nth j I_list [] = repeat p (length (nth j Bif_list []))
           /\ Forall (fun v => v = p) (nth j I_list [])
           /\ length (nth j I_list []) = length (nth j Bif_list []).
Proof.
  intros H. apply Biforcation_returns in H.
  destruct H as (t & values & sols & Ht & Hv & Hs & Hlen & Hds).
  exists t, values, sols.
  assert (HI : I_list = fst (dataset_of t_relax values sols)) by now rewrite <- Hds.
  assert (HB : Bif_list = snd (dataset_of t_relax values sols)) by now rewrite <- Hds.
  destruct (dataset_of_lengths t_relax values sols Hlen) as [HlI HlB].
  repeat (split; [first [assumption | congruence]|]).
  intros j Hj p X.
  destruct (dataset_of_nth t_relax values sols j Hlen Hj) as [HnB HnI].
  rewrite <- HB in HnB. rewrite <- HI in HnI.
  fold X in HnB, HnI. fold p in HnI.
  rewrite broadcast_repeat in HnI.
  exists (argrelextrema X greater), (argrelextrema X less).
  split.
  { intros i. rewrite (argrelextrema_contract greater X greater_irreflexive).
    rewrite strict_local_extrema_In, !greater_spec. reflexivity. }
  split.
  { intros i. rewrite (argrelextrema_contract less X less_irreflexive).
    rewrite strict_local_extrema_In, !less_spec. reflexivity. }
  split; [apply argrelextrema_increasing|].
  split; [apply argrelextrema_increasing|].
  split; [reflexivity|]. split; [reflexivity|].
  split.
  { rewrite HnB. unfold extremum_values, maxima_values, minima_values, fancy_index.
    reflexivity. }
  rewrite HnI, HnB. split; [reflexivity|]. split.
  - apply Forall_forall. intros v Hin. apply repeat_spec in Hin. exact Hin.
  - apply repeat_length.
Qed.

Lemma combine_repeat (i : Q) (l : list Q) :
  combine (repeat i (length l)) l = map (pair i) l.
Proof.
  induction l as [|a l IH]; simpl; [reflexivity|]. now rewrite IH.
Qed.

Lemma combine_app_same {A B : Type} (l1 l2 : list A) (m1 m2 : list B) :
  length l1 = length m1 ->
  combine (l1 ++ l2) (m1 ++ m2) = combine l1 m1 ++ combine l2 m2.
Proof.
  revert m1. induction l1 as [|a l1 IH]; intros [|b m1] Hlen; simpl in *; try lia.
  - reflexivity.
  - rewrite IH by lia. reflexivity.
Qed.

(** Flattening the two lists gives the pairs of the sweep. *)
Lemma dataset_of_flat_pairs (t_relax : Z) (values : list Q) :
  forall sols, length sols = length values ->
    combine (concat (fst (dataset_of t_relax values sols)))
            (concat (snd (dataset_of t_relax values sols)))
    = flat_pairs t_relax values sols.
Proof.
  unfold dataset_of, flat_pairs. simpl.
  induction values as [|i values IH]; intros [|sol sols] Hlen; simpl in *; try lia.
  - reflexivity.
  - rewrite combine_app_same by (rewrite broadcast_repeat; apply repeat_length).
    rewrite IH by lia. rewrite broadcast_repeat, combine_repeat. reflexivity.
Qed.

Lemma dataset_of_pairing (t_relax : Z) (values : list Q) :
  forall sols, length sols = length values ->
    Forall2 (fun I_x Bif_val : list Q => length I_x = length Bif_val)
            (fst (dataset_of t_relax values sols)) (snd (dataset_of t_relax values sols)).
Proof.
  unfold dataset_of. simpl.
  induction values as [|i values IH]; intros [|sol sols] Hlen; simpl in *; try lia.
  - constructor.
  - constructor; [|apply IH; lia].
    rewrite broadcast_repeat. apply repeat_length.
Qed.

Lemma pairing_concat (I_list Bif_list : list (list Q)) :
  Forall2 (fun I_x Bif_val : list Q => length I_x = length Bif_val) I_list Bif_list ->
  length (concat I_list) = length (concat Bif_list).
Proof.
  induction 1 as [|I_x Bif_val I_list Bif_list Hx _ IH]; simpl; [reflexivity|].
  rewrite !length_app, Hx, IH. reflexivity.
Qed.

(** C7.  The two returned lists have the same number of entries,
    matching entries have the same length, and so do the two lists
    flattened. *)
Theorem dataset_pairing_invariant
    (model : Model) (par_start par_stop : Q) (par_tot : Z) (t0 t_stop dt : Q)
    (t_relax : Z) (w : World) (I_list Bif_list : list (list Q)) :
  fst (Biforcation model par_start par_stop par_tot t0 t_stop dt t_relax w)
    = inr (I_list, Bif_list) ->
  length I_list = length Bif_list
  /\ Forall2 (fun I_x Bif_val : list Q => length I_x = length Bif_val) I_list Bif_list
  /\ length (concat I_list) = length (concat Bif_list).
Proof.
  intros H. apply Biforcation_returns in H.
  destruct H as (t & values & sols & _ & _ & _ & Hlen & Hds).
  pose proof (dataset_of_pairing t_relax values sols Hlen) as Hpair.
  rewrite <- Hds in Hpair. simpl in Hpair.
  split; [eapply Forall2_length; exact Hpair|].
  split; [exact Hpair|]. apply pairing_concat. exact Hpair.
Qed.

(** C6, amended.  A returned dataset is two parallel lists with one
    entry per swept value, in sweep order: entry [j] of the second is
    the list of extremum values of swept value [j], entry [j] of the
    first is swept value [j] repeated once per extremum.  Flattened,
    the two lists are the pairs (parameter value, extremum value) of
    the swept values concatenated in sweep order. *)
Theorem Biforcation_nested_dataset
    (model : Model) (par_start par_stop : Q) (par_tot : Z) (t0 t_stop dt : Q)
    (t_relax : Z) (w : World) (I_list Bif_list : list (list Q)) :
  fst (Biforcation model par_start par_stop par_tot t0 t_stop dt t_relax w)
    = inr (I_list, Bif_list) ->
  exists t values sols,
    arange t0 t_stop dt = inr t
    /\ linspace par_start par_stop par_tot = inr values
    /\ fst (integrate_sweep model initial_state t values w) = inr sols
    /\ length I_list = length values
    /\ length Bif_list = length values
    /\ (forall j, (j < length values)%nat ->
          nth j Bif_list [] = extremum_values (relaxed_window t_relax (nth j sols []))
          /\ nth j I_list [] = repeat (nth j values 0) (length (nth j Bif_list [])))
    /\ combine (concat I_list) (concat Bif_list) = flat_pairs t_relax values sols.
Proof.
  intros H. apply Biforcation_returns in H.
  destruct H as (t & values & sols & Ht & Hv & Hs & Hlen & Hds).
  exists t, values, sols.
  assert (HI : I_list = fst (dataset_of t_relax values sols)) by now rewrite <- Hds.
  assert (HB : Bif_list = snd (dataset_of t_relax values sols)) by now rewrite <- Hds.
  destruct (dataset_of_lengths t_relax values sols Hlen) as [HlI HlB].
  repeat (split; [first [assumption | congruence]|]).
  split.
  - intros j Hj.
    destruct (dataset_of_nth t_relax values sols j Hlen Hj) as [HnB HnI].
    rewrite <- HB in HnB. rewrite <- HI in HnI.
    rewrite broadcast_repeat in HnI. rewrite HnI, HnB. split; reflexivity.
  - rewrite HI, HB. now apply dataset_of_flat_pairs.
Qed.

End Dataset.

(** *** Runs of the dataset theorems on the Euler integrator *)

(** The sweep of the oscillator over stiffness 2 and 3, ten grid
    points, eight trailing samples. *)
Lemma oscillator_sweep :
  fst (@Biforcation Euler.integrator oscillator 2 3 2 0 10 1 (-8) 0%nat)
  = inr ([[2; 2]; [3; 3]], [[73 # 5; -11 # 5]; [128 # 5; -16 # 5]]).
Proof.
  vm_compute. reflexivity.
Qed.

(** C5 on the oscillator sweep: the entries for the first swept value. *)
Lemma per_parameter_extremum_list_run :
  exists t values sols,
    Grid.arange 0 10 1 = inr t
    /\ Grid.linspace 2 3 2 = inr values
    /\ fst (@integrate_sweep Euler.integrator oscillator initial_state t values 0%nat) = inr sols
    /\ nth 0 values 0 = 2
    /\ Forall (fun v => v = 2) [2; 2]
    /\ exists max_loc min_loc : list nat,
         max_loc = [6%nat] /\ min_loc = [2%nat]
         /\ [73 # 5; -11 # 5]
            = map (fun i => nth i (relaxed_window (-8) (nth 0 sols [])) 0) max_loc
              ++ map (fun i => nth i (relaxed_window (-8) (nth 0 sols [])) 0) min_loc.
Proof.
  destruct (@per_parameter_extremum_list Euler.integrator oscillator 2 3 2 0 10 1 (-8) 0%nat
              [[2; 2]; [3; 3]] [[73 # 5; -11 # 5]; [128 # 5; -16 # 5]] oscillator_sweep)
    as (t & values & sols & Ht & Hv & Hs & Hlen & HlI & HlB & Hj).
  exists t, values, sols. repeat (split; [assumption|]).
  assert (H0 : (0 < length values)%nat) by (simpl in HlI; lia).
  destruct (Hj 0%nat H0)
    as (max_loc & min_loc & _ & _ & _ & _ & Hmax & Hmin & Hval & _ & Hall & _).
  assert (Hp : nth 0 values 0 = 2) by (vm_compute in Hv; inversion Hv; reflexivity).
  rewrite Hp in Hall. split; [exact Hp|]. split; [exact Hall|].
  exists max_loc, min_loc.
  assert (Hsols : sols = [Euler.solve oscillator initial_state
                            [0; 1; 2; 3; 4; 5; 6; 7; 8; 9] 2;
                          Euler.solve oscillator initial_state
                            [0; 1; 2; 3; 4; 5; 6; 7; 8; 9] 3]).
  { vm_compute in Ht. inversion Ht; subst t.
    vm_compute in Hv. inversion Hv; subst values.
    vm_compute in Hs. inversion Hs. vm_compute. reflexivity. }
  split; [rewrite Hmax, Hsols; vm_compute; reflexivity|].
  split; [rewrite Hmin, Hsols; vm_compute; reflexivity|].
  exact Hval.
Defined.

(** C7 on the oscillator sweep. *)
Lemma dataset_pairing_invariant_run :
  length [[2; 2]; [3; 3]] = length [[73 # 5; -11 # 5]; [128 # 5; -16 # 5]]
  /\ length (concat [[2; 2]; [3; 3]])
     = length (concat [[73 # 5; -11 # 5]; [128 # 5; -16 # 5]]).
Proof.
  destruct (@dataset_pairing_invariant Euler.integrator oscillator 2 3 2 0 10 1 (-8) 0%nat
              [[2; 2]; [3; 3]] [[73 # 5; -11 # 5]; [128 # 5; -16 # 5]] oscillator_sweep)
    as (H1 & _ & H3).
  split; assumption.
Defined.

(** C6 as written fails: the returned lists hold one list per swept
    value, they are not flat sequences of floats.  On the oscillator
    sweep each has two entries, and four values once flattened. *)
Lemma Biforcation_returns_nested_lists :
  exists I_list Bif_list,
    fst (@Biforcation Euler.integrator oscillator 2 3 2 0 10 1 (-8) 0%nat)
      = inr (I_list, Bif_list)
    /\ I_list = [[2; 2]; [3; 3]]
    /\ Bif_list = [[73 # 5; -11 # 5]; [128 # 5; -16 # 5]]
    /\ py_nested I_list <> py_flat (concat I_list)
    /\ py_nested Bif_list <> py_flat (concat Bif_list)
    /\ length I_list = 2%nat
    /\ length (concat I_list) = 4%nat.
Proof.
  exists [[2; 2]; [3; 3]], [[73 # 5; -11 # 5]; [128 # 5; -16 # 5]].
  split; [exact oscillator_sweep|].
  repeat split; try reflexivity; simpl; discriminate.
Qed.

(** C6, amended, on the oscillator sweep: the flattened lists are the
    four (parameter, extremum) pairs in sweep order. *)
Lemma Biforcation_nested_dataset_run :
  combine (concat [[2; 2]; [3; 3]]) (concat [[73 # 5; -11 # 5]; [128 # 5; -16 # 5]])
  = [(2, 73 # 5); (2, -11 # 5); (3, 128 # 5); (3, -16 # 5)]
  /\ exists t values sols,
       Grid.linspace 2 3 2 = inr values
       /\ combine (concat [[2; 2]; [3; 3]]) (concat [[73 # 5; -11 # 5]; [128 # 5; -16 # 5]])
          = flat_pairs (-8) values sols
       /\ fst (@integrate_sweep Euler.integrator oscillator initial_state t values 0%nat)
          = inr sols.
Proof.
  split; [reflexivity|].
  destruct (@Biforcation_nested_dataset Euler.integrator oscillator 2 3 2 0 10 1 (-8) 0%nat
              [[2; 2]; [3; 3]] [[73 # 5; -11 # 5]; [128 # 5; -16 # 5]] oscillator_sweep)
    as (t & values & sols & Ht & Hv & Hs & _ & _ & _ & Hflat).
  exists t, values, sols. repeat split; assumption.
Defined.

(** ** Sweep specifications and errors *)

Section SweepSpecification.
Context {Int : Integrator}.
Import Numpy Scipy Grid.

Lemma arange_zero_step (start stop step : Q) :
  step == 0 -> arange start stop step = inl ZeroDivisionError.
Proof.
  intros H. unfold arange. apply Qeq_bool_iff in H. rewrite H. reflexivity.
Qed.

Lemma arange_returns (start stop step : Q) :
  ~ step == 0 -> exists t, arange start stop step = inr t.
Proof.
  intros H. unfold arange. destruct (Qeq_bool step 0) eqn:E.
  - apply Qeq_bool_iff in E. contradiction.
  - eexists. reflexivity.
Qed.

Lemma linspace_negative (start stop : Q) (num : Z) :
  (num < 0)%Z -> linspace start stop num = inl ValueError.
Proof.
  intros H. unfold linspace.
  replace (num <? 0)%Z with true by (symmetry; apply Z.ltb_lt; lia). reflexivity.
Qed.

Lemma linspace_returns (start stop : Q) (num : Z) :
  (0 <= num)%Z ->
  exists values, linspace start stop num = inr values /\ length values = Z.to_nat num.
Proof.
  intros H. unfold linspace.
  replace (num <? 0)%Z with false by (symmetry; apply Z.ltb_ge; lia).
  eexists. split; [reflexivity|]. cbv zeta.
  destruct (1 <? num)%Z; [rewrite set_last_length|];
    destruct (0 <? num - 1)%Z; try destruct (Qeq_bool _ 0);
    rewrite !length_map, length_seq; reflexivity.
Qed.

(** C8, amended.  The engine checks nothing itself and has no error of
    its own.  It fails before any integration only through the two
    NumPy calls: [np.arange] when [dt = 0], and [np.linspace]
    ([ValueError]) when [par_tot < 0]; the world is then left as it
    was.  With [par_tot = 0] it returns the empty dataset without
    integrating.  Every other specification is accepted, whatever the
    order of [par_start] and [par_stop], the sign of [dt] and the order
    of [t0] and [t_stop]: the grid and the [par_tot] sweep values are
    built and the outcome is that of the integrations. *)
Theorem sweep_specification_not_validated
    (model : Model) (par_start par_stop : Q) (par_tot : Z) (t0 t_stop dt : Q)
    (t_relax : Z) (w : World) :
  let run := Biforcation model par_start par_stop par_tot t0 t_stop dt t_relax w in
  (dt == 0 -> run = (inl ZeroDivisionError, w))
  /\ (~ dt == 0 -> (par_tot < 0)%Z -> run = (inl ValueError, w))
  /\ (~ dt == 0 -> par_tot = 0%Z -> run = (inr ([], []), w))
  /\ (~ dt == 0 -> (0 < par_tot)%Z ->
        exists t values,
          arange t0 t_stop dt = inr t
          /\ linspace par_start par_stop par_tot = inr values
          /\ length values = Z.to_nat par_tot
          /\ run = match integrate_sweep model initial_state t values w with
                   | (inr sols, w') => (inr (dataset_of t_relax values sols), w')
                   | (inl e, w') => (inl e, w')
                   end).
Proof.
  intros run. subst run. rewrite Biforcation_run.
  split; [|split; [|split]].
  - intros Hdt. rewrite arange_zero_step by exact Hdt. reflexivity.
  - intros Hdt Hneg. destruct (arange_returns t0 t_stop dt Hdt) as [t ->].
    rewrite linspace_negative by exact Hneg. reflexivity.
  - intros Hdt ->. destruct (arange_returns t0 t_stop dt Hdt) as [t ->].
    reflexivity.
  - intros Hdt Hpos. destruct (arange_returns t0 t_stop dt Hdt) as [t Ht].
    destruct (linspace_returns par_start par_stop par_tot) as (values & Hv & Hlen); [lia|].
    exists t, values. rewrite Ht, Hv. repeat split; try reflexivity. exact Hlen.
Qed.

End SweepSpecification.

(** C8 as written fails: a descending sweep ([par_stop < par_start]
    with [par_tot > 1]) is integrated and returns a dataset, and
    [par_tot = 0] returns the empty dataset; neither raises. *)
Lemma invalid_specifications_are_accepted :
  invalid_sweep_specification 3 2 2 0 10 1 = true
  /\ fst (@Biforcation Euler.integrator oscillator 3 2 2 0 10 1 (-8) 0%nat)
     = inr ([[3; 3]; [2; 2]], [[128 # 5; -16 # 5]; [73 # 5; -11 # 5]])
  /\ invalid_sweep_specification 2 3 0 0 10 1 = true
  /\ @Biforcation Euler.integrator oscillator 2 3 0 0 10 1 (-8) 0%nat
     = (inr ([], []), 0%nat).
Proof.
  repeat split; vm_compute; reflexivity.
Qed.

(** C8, amended, on runs with the call-counting integrator: the two
    failures and the empty sweep leave the call count at 0. *)
Lemma sweep_specification_not_validated_run :
  @Biforcation Euler.integrator oscillator 2 3 2 0 10 0 (-8) 0%nat
    = (inl ZeroDivisionError, 0%nat)
  /\ @Biforcation Euler.integrator oscillator 2 3 (-1) 0 10 1 (-8) 0%nat
    = (inl ValueError, 0%nat)
  /\ @Biforcation Euler.integrator oscillator 2 3 0 0 10 1 (-8) 0%nat
    = (inr ([], []), 0%nat).
Proof.
  split; [|split].
  - apply (@sweep_specification_not_validated Euler.integrator oscillator 2 3 2 0 10 0 (-8)
             0%nat). reflexivity.
  - apply (@sweep_specification_not_validated Euler.integrator oscillator 2 3 (-1) 0 10 1 (-8)
             0%nat); [discriminate | lia].
  - apply (@sweep_specification_not_validated Euler.integrator oscillator 2 3 0 0 10 1 (-8)
             0%nat); [discriminate | reflexivity].
Defined.

(** ** Repeatability of the sweep *)

Section Repeatability.
Context {Int : Integrator}.
Import Numpy Scipy Grid.

(** With a deterministic integrator the trajectories of a sweep do not
    depend on the world the sweep starts in, nor on the calls made
    before: each is the integrator's answer for its own swept value. *)
Lemma integrate_sweep_independent (model : Model) (t : list Q) (w0 : World) :
  deterministic Int ->
  forall values w,
    fst (integrate_sweep model initial_state t values w)
    = sequence_results (map (fun i => fst (odeint model initial_state t i w0)) values).
Proof.
  intros Hdet. induction values as [|i rest IH]; intros w; [reflexivity|].
  cbn [integrate_sweep map sequence_results]. unfold bind.
  rewrite (Hdet model initial_state t i w0 w).
  destruct (odeint model initial_state t i w) as [[e|sol] w1]; [reflexivity|].
  cbn [fst]. rewrite <- (IH w1).
  destruct (integrate_sweep model initial_state t rest w1) as [[e|sols] w2]; reflexivity.
Qed.

(** C9.  With a deterministic integrator, the dataset does not depend
    on the world the engine is started in: two runs on the same inputs
    agree, and so does a second run started where the first ended.  The
    dataset is assembled from one integration per swept value, each from
    the same initial state over the same grid and independent of the
    others; and the only changes the engine makes to the world are those
    of its integrator calls. *)
Theorem sweep_repeatable
    (model : Model) (par_start par_stop : Q) (par_tot : Z) (t0 t_stop dt : Q)
    (t_relax : Z) (w1 w2 w0 : World) :
  deterministic Int ->
  let run := Biforcation model par_start par_stop par_tot t0 t_stop dt t_relax in
  fst (run w1) = fst (run w2)
  /\ fst (run (snd (run w1))) = fst (run w1)
  /\ fst (run w1) =
     match arange t0 t_stop dt with
     | inl e => inl e
     | inr t =>
         match linspace par_start par_stop par_tot with
         | inl e => inl e
         | inr values =>
             match sequence_results
                     (map (fun i => fst (odeint model initial_state t i w0)) values) with
             | inl e => inl e
             | inr sols => inr (dataset_of t_relax values sols)
             end
         end
     end
  /\ (forall t values,
        arange t0 t_stop dt = inr t ->
        linspace par_start par_stop par_tot = inr values ->
        snd (run w1) = snd (integrate_sweep model initial_state t values w1)).
Proof.
  intros Hdet run.
  assert (Hform : forall w, fst (run w) =
     match arange t0 t_stop dt with
     | inl e => inl e
     | inr t =>
         match linspace par_start par_stop par_tot with
         | inl e => inl e
         | inr values =>
             match sequence_results
                     (map (fun i => fst (odeint model initial_state t i w0)) values) with
             | inl e => inl e
             | inr sols => inr (dataset_of t_relax values sols)
             end
         end
     end).
  { intros w. subst run. rewrite Biforcation_run.
    destruct (arange t0 t_stop dt) as [e|t]; [reflexivity|].
    destruct (linspace par_start par_stop par_tot) as [e|values]; [reflexivity|].
    rewrite <- (integrate_sweep_independent model t w0 Hdet values w).
    destruct (integrate_sweep model initial_state t values w) as [[e|sols] w']; reflexivity. }
  split; [now rewrite !Hform|]. split; [now rewrite !Hform|]. split; [apply Hform|].
  intros t values Ht Hv. subst run. rewrite Biforcation_run, Ht, Hv.
  destruct (integrate_sweep model initial_state t values w1) as [[e|sols] w']; reflexivity.
Qed.

End Repeatability.

(** C9 on the oscillator sweep: started after 0 and after 5 earlier
    integrator calls, the dataset is the same. *)
Lemma sweep_repeatable_run :
  fst (@Biforcation Euler.integrator oscillator 2 3 2 0 10 1 (-8) 0%nat)
  = fst (@Biforcation Euler.integrator oscillator 2 3 2 0 10 1 (-8) 5%nat)
  /\ snd (@Biforcation Euler.integrator oscillator 2 3 2 0 10 1 (-8) 5%nat) = 7%nat.
Proof.
  split.
  - apply (@sweep_repeatable Euler.integrator oscillator 2 3 2 0 10 1 (-8) 0%nat 5%nat 0%nat
             euler_deterministic).
  - vm_compute. reflexivity.
Defined.

(** The hypothesis of C9 is needed: with the leaking integrator the two
    runs differ. *)
Lemma leaky_integrator_not_repeatable :
  fst (@Biforcation Euler.leaky oscillator 2 3 2 0 10 1 (-8) 0%nat)
    = inr ([[2; 2]; [3; 3]], [[73 # 5; -11 # 5]; [133 # 5; -11 # 5]])
  /\ fst (@Biforcation Euler.leaky oscillator 2 3 2 0 10 1 (-8) 5%nat)
    = inr ([[2; 2]; [3; 3]], [[98 # 5; 14 # 5]; [158 # 5; 14 # 5]]).
Proof.
  split; vm_compute; reflexivity.
Qed.

(** ** Further properties of the sweep engine *)

Section SweepFailures.
Context {Int : Integrator}.
Import Numpy Scipy Grid.

Lemma integrate_sweep_app (model : Model) (t done rest : list Q) :
  forall w,
    integrate_sweep model initial_state t (done ++ rest) w =
    match integrate_sweep model initial_state t done w with
    | (inr sols, w') =>
        match integrate_sweep model initial_state t rest w' with
        | (inr sols', w'') => (inr (sols ++ sols'), w'')
        | (inl e, w'') => (inl e, w'')
        end
    | (inl e, w') => (inl e, w')
    end.
Proof.
  induction done as [|i done IH]; intros w.
  - simpl. unfold ret.
    destruct (integrate_sweep model initial_state t rest w) as [[e|sols'] w'']; reflexivity.
  - cbn [app integrate_sweep]. unfold bind.
    destruct (odeint model initial_state t i w) as [[e|sol] w1]; [reflexivity|].
    rewrite IH. unfold ret.
    destruct (integrate_sweep model initial_state t done w1) as [[e|sols] w2]; [reflexivity|].
    cbv beta iota.
    destruct (integrate_sweep model initial_state t rest w2) as [[e|sols'] w3]; reflexivity.
Qed.

(** X1.  There is no exception handling in the loop: when the
    integrations of the first swept values return and the integrator
    raises for the next one, the engine ends with that exception, in the
    world that call left.  The lists built so far are lost and the
    remaining values are never integrated. *)
Theorem integrator_exception_aborts_sweep
    (model : Model) (par_start par_stop : Q) (par_tot : Z) (t0 t_stop dt : Q)
    (t_relax : Z) (w : World) (t done : list Q) (i : Q) (rest : list Q)
    (sols : list Trajectory) (w' w'' : World) (e : exn) :
  arange t0 t_stop dt = inr t ->
  linspace par_start par_stop par_tot = inr (done ++ i :: rest) ->
  integrate_sweep model initial_state t done w = (inr sols, w') ->
  odeint model initial_state t i w' = (inl e, w'') ->
  Biforcation model par_start par_stop par_tot t0 t_stop dt t_relax w = (inl e, w'').
Proof.
  intros Ht Hv Hdone Hfail.
  rewrite Biforcation_run, Ht, Hv, integrate_sweep_app, Hdone.
  cbn [integrate_sweep]. unfold bind. rewrite Hfail. reflexivity.
Qed.

(** X8.  A returned dataset has exactly [par_tot] entries in each
    list, one per swept value, whether or not extrema were found. *)
Theorem dataset_has_par_tot_entries
    (model : Model) (par_start par_stop : Q) (par_tot : Z) (t0 t_stop dt : Q)
    (t_relax : Z) (w : World) (I_list Bif_list : list (list Q)) :
  fst (Biforcation model par_start par_stop par_tot t0 t_stop dt t_relax w)
    = inr (I_list, Bif_list) ->
  (0 <= par_tot)%Z
  /\ length I_list = Z.to_nat par_tot
  /\ length Bif_list = Z.to_nat par_tot.
Proof.
  intros H. apply Biforcation_returns in H.
  destruct H as (t & values & sols & _ & Hv & _ & Hlen & Hds).
  destruct (Z.lt_ge_cases par_tot 0) as [Hneg|Hpos].
  - rewrite linspace_negative in Hv by exact Hneg. discriminate.
  - destruct (linspace_returns par_start par_stop par_tot Hpos) as (values' & Hv' & Hl').
    rewrite Hv in Hv'. inversion Hv'; subst values'.
    destruct (dataset_of_lengths t_relax values sols Hlen) as [HlI HlB].
    rewrite <- Hds in HlI, HlB. simpl in HlI, HlB.
    split; [exact Hpos|]. split; congruence.
Qed.

End SweepFailures.

(** X1 on a run: the sweep 2, 3, 4 with an integrator that refuses
    stiffness above 3 ends with the exception after three calls. *)
Lemma integrator_exception_aborts_sweep_run :
  @Biforcation (refusing_integrator 3) oscillator 2 4 3 0 10 1 (-8) 0%nat
  = (inl (CollaboratorError 1), 3%nat).
Proof.
  apply (@integrator_exception_aborts_sweep (refusing_integrator 3) oscillator 2 4 3 0 10 1
           (-8) 0%nat
           [0; 1; 2; 3; 4; 5; 6; 7; 8; 9] [4 # 2; 6 # 2] 4 []
           [Euler.solve oscillator initial_state [0; 1; 2; 3; 4; 5; 6; 7; 8; 9] (4 # 2);
            Euler.solve oscillator initial_state [0; 1; 2; 3; 4; 5; 6; 7; 8; 9] (6 # 2)]
           2%nat);
    vm_compute; reflexivity.
Defined.

(** X8 on the oscillator sweep. *)
Lemma dataset_has_par_tot_entries_run :
  length [[2; 2]; [3; 3]] = Z.to_nat 2.
Proof.
  apply (@dataset_has_par_tot_entries Euler.integrator oscillator 2 3 2 0 10 1 (-8) 0%nat
           [[2; 2]; [3; 3]] [[73 # 5; -11 # 5]; [128 # 5; -16 # 5]] oscillator_sweep).
Defined.

(** ** The time grid and the sweep values *)

Section Grids.
Import Grid.

(** Value [k] of a sweep with [par_tot > 1]. *)
Lemma linspace_nth (start stop : Q) (num : Z) (values : list Q) (k : nat) :
  (1 < num)%Z ->
  linspace start stop num = inr values ->
  (k < length values)%nat ->
  nth k values 0 == start + inject_Z (Z.of_nat k) * ((stop - start) / inject_Z (num - 1)).
Proof.
  intros Hnum Hv Hk.
  destruct (linspace_values start stop num Hnum) as (y & Hlen & Hnth & Heq).
  rewrite Heq in Hv. inversion Hv; subst values.
  rewrite set_last_length in Hk. rewrite set_last_nth by exact Hk.
  assert (Hdiv : ~ inject_Z (num - 1) == 0).
  { unfold Qeq, inject_Z. simpl. lia. }
  destruct (Nat.eqb_spec k (length y - 1)) as [E|E].
  - subst k. rewrite Hlen.
    replace (Z.of_nat (Z.to_nat num - 1)) with (num - 1)%Z by lia.
    field. exact Hdiv.
  - rewrite Hnth by lia. field. exact Hdiv.
Qed.

(** Every value of a sweep with [par_tot > 1] is [a] steps after
    [start] and [b] steps before [stop]. *)
Lemma linspace_offset (start stop : Q) (num : Z) (values : list Q) (v : Q) :
  (1 < num)%Z ->
  linspace start stop num = inr values ->
  In v values ->
  exists a b, 0 <= a /\ 0 <= b /\ a + b == inject_Z (num - 1)
              /\ v == start + a * ((stop - start) / inject_Z (num - 1)).
Proof.
  intros Hnum Hv Hin.
  assert (Hlen : length values = Z.to_nat num).
  { destruct (linspace_returns start stop num) as (v' & Hv' & Hl'); [lia|].
    rewrite Hv in Hv'. inversion Hv'; subst v'. exact Hl'. }
  destruct (In_nth values v 0 Hin) as (k & Hk & Hnth).
  exists (inject_Z (Z.of_nat k)), (inject_Z (num - 1 - Z.of_nat k)).
  split; [change 0 with (inject_Z 0); rewrite <- Zle_Qle; lia|].
  split; [change 0 with (inject_Z 0); rewrite <- Zle_Qle; lia|].
  split.
  - rewrite <- inject_Z_plus. apply inject_Z_injective. lia.
  - rewrite <- Hnth. now apply linspace_nth.
Qed.

(** The values of a sweep lie between its bounds. *)
Lemma linspace_between (start stop : Q) (num : Z) (values : list Q) :
  start <= stop ->
  linspace start stop num = inr values ->
  Forall (fun v => start <= v <= stop) values.
Proof.
  intros Hle Hv. apply Forall_forall. intros v Hin.
  destruct (Z.lt_ge_cases 1 num) as [Hnum|Hnum].
  - destruct (linspace_offset start stop num values v Hnum Hv Hin)
      as (a & b & Ha & Hb & Hab & Hvv).
    set (step := (stop - start) / inject_Z (num - 1)) in *.
    assert (Hden : 0 < inject_Z (num - 1)).
    { change 0 with (inject_Z 0). rewrite <- Zlt_Qlt. lia. }
    assert (Hstep : step * inject_Z (num - 1) == stop - start).
    { subst step. field. intros E. rewrite E in Hden. exact (Qlt_irrefl _ Hden). }
    assert (Hpos : 0 <= step).
    { subst step. apply Qle_shift_div_l; [exact Hden|]. lra. }
    pose proof (Qmult_le_0_compat _ _ Ha Hpos) as H1.
    pose proof (Qmult_le_0_compat _ _ Hb Hpos) as H2.
    assert (Hsum : a * step + b * step == stop - start).
    { rewrite <- Hstep, <- Hab. ring. }
    split; lra.
  - destruct (Z.lt_ge_cases num 0) as [Hneg|Hn0].
    { rewrite linspace_negative in Hv by exact Hneg. discriminate. }
    assert (Hcases : num = 0%Z \/ num = 1%Z) by lia.
    destruct Hcases as [-> | ->].
    + change (linspace start stop 0) with (@inr exn _ (@nil Q)) in Hv.
      inversion Hv; subst values. destruct Hin.
    + change (linspace start stop 1)
        with (@inr exn _ [inject_Z 0 * (stop - start) + start]) in Hv.
      inversion Hv; subst values. destruct Hin as [<- | []].
      assert (E : inject_Z 0 * (stop - start) + start == start) by ring.
      rewrite E. split; lra.
Qed.

(** X7.  The order of the sweep follows the order of its bounds: with
    [par_tot > 1] the swept values increase strictly when
    [par_start < par_stop], decrease strictly when
    [par_stop < par_start] and are all [par_start] when the bounds are
    equal; in every case each lies between the two bounds. *)
Theorem sweep_order_follows_bounds (par_start par_stop : Q) (par_tot : Z)
    (values : list Q) :
  (1 < par_tot)%Z ->
  linspace par_start par_stop par_tot = inr values ->
  (par_start < par_stop ->
     (forall k, (S k < length values)%nat -> nth k values 0 < nth (S k) values 0)
     /\ Forall (fun v => par_start <= v <= par_stop) values)
  /\ (par_stop < par_start ->
     (forall k, (S k < length values)%nat -> nth (S k) values 0 < nth k values 0)
     /\ Forall (fun v => par_stop <= v <= par_start) values)
  /\ (par_start == par_stop -> Forall (fun v => v == par_start) values).
Proof.
  intros Hnum Hv.
  assert (Hlen : length values = Z.to_nat par_tot).
  { destruct (linspace_returns par_start par_stop par_tot) as (v' & Hv' & Hl'); [lia|].
    rewrite Hv in Hv'. inversion Hv'; subst v'. exact Hl'. }
  set (step := (par_stop - par_start) / inject_Z (par_tot - 1)).
  assert (Hden : 0 < inject_Z (par_tot - 1)).
  { change 0 with (inject_Z 0). rewrite <- Zlt_Qlt. lia. }
  assert (Hstep : step * inject_Z (par_tot - 1) == par_stop - par_start).
  { subst step. field. intros E. rewrite E in Hden. exact (Qlt_irrefl _ Hden). }
  assert (Hnext : forall k, (S k < length values)%nat ->
            nth (S k) values 0 - nth k values 0 == step).
  { intros k Hk.
    rewrite (linspace_nth par_start par_stop par_tot values (S k) Hnum Hv Hk).
    rewrite (linspace_nth par_start par_stop par_tot values k Hnum Hv) by lia.
    replace (Z.of_nat (S k)) with (Z.of_nat k + 1)%Z by lia.
    rewrite inject_Z_plus. change (inject_Z 1) with 1. fold step. ring. }
  assert (Hoff : forall v, In v values ->
            exists a b, 0 <= a /\ 0 <= b /\ a + b == inject_Z (par_tot - 1)
                        /\ v == par_start + a * step).
  { intros v Hin. now apply (linspace_offset par_start par_stop par_tot values v). }
  split; [|split].
  - intros Hasc.
    assert (Hpos : 0 < step).
    { subst step. apply Qlt_shift_div_l; [exact Hden|]. lra. }
    split.
    + intros k Hk. specialize (Hnext k Hk). lra.
    + apply Forall_forall. intros v Hin.
      destruct (Hoff v Hin) as (a & b & Ha & Hb & Hab & Hvv).
      pose proof (Qmult_le_0_compat _ _ Ha (Qlt_le_weak _ _ Hpos)) as H1.
      pose proof (Qmult_le_0_compat _ _ Hb (Qlt_le_weak _ _ Hpos)) as H2.
      assert (Hsum : a * step + b * step == par_stop - par_start).
      { rewrite <- Hstep, <- Hab. ring. }
      split; lra.
  - intros Hdesc.
    assert (Hneg : 0 < - step).
    { assert (Hs : - step == (par_start - par_stop) / inject_Z (par_tot - 1)).
      { subst step. field. intros E. rewrite E in Hden. exact (Qlt_irrefl _ Hden). }
      rewrite Hs. apply Qlt_shift_div_l; [exact Hden|]. lra. }
    split.
    + intros k Hk. specialize (Hnext k Hk). lra.
    + apply Forall_forall. intros v Hin.
      destruct (Hoff v Hin) as (a & b & Ha & Hb & Hab & Hvv).
      pose proof (Qmult_le_0_compat _ _ Ha (Qlt_le_weak _ _ Hneg)) as H1.
      pose proof (Qmult_le_0_compat _ _ Hb (Qlt_le_weak _ _ Hneg)) as H2.
      assert (Hsum : a * step + b * step == par_stop - par_start).
      { rewrite <- Hstep, <- Hab. ring. }
      split; lra.
  - intros Heq. apply Forall_forall. intros v Hin.
    destruct (Hoff v Hin) as (a & b & _ & _ & _ & Hvv).
    assert (Hz : step == 0).
    { subst step. rewrite Heq. field. intros E. rewrite E in Hden.
      exact (Qlt_irrefl _ Hden). }
    rewrite Hvv, Hz. ring.
Qed.

End Grids.

(** X7 on the descending sweep 1, 1/2, 0. *)
Lemma sweep_order_follows_bounds_run :
  Forall (fun v => 0 <= v <= 1) [2 # 2; 1 # 2; 0].
Proof.
  assert (Hv : Grid.linspace 1 0 3 = inr [2 # 2; 1 # 2; 0]) by (vm_compute; reflexivity).
  destruct (sweep_order_follows_bounds 1 0 3 _ ltac:(lia) Hv) as (_ & H & _).
  apply H. reflexivity.
Defined.

(** ** What the dataset can and cannot contain *)

Section DatasetContents.
Context {Int : Integrator}.
Import Numpy Scipy Grid.

Lemma In_skipn_In {A : Type} (n : nat) (l : list A) (x : A) :
  In x (skipn n l) -> In x l.
Proof.
  intros H. rewrite <- (firstn_skipn n l). apply in_or_app. right. exact H.
Qed.

Lemma argrelextrema_in_range (cmp : Q -> Q -> bool) (X : list Q) (i : nat) :
  In i (argrelextrema X cmp) -> (i < length X)%nat.
Proof.
  rewrite argrelextrema_filter, filter_In, in_seq. lia.
Qed.

Lemma fancy_index_In (X : list Q) (idx : list nat) (v : Q) :
  (forall i, In i idx -> (i < length X)%nat) ->
  In v (fancy_index X idx) -> In v X.
Proof.
  intros Hrange Hin. unfold fancy_index in Hin. apply in_map_iff in Hin.
  destruct Hin as (i & <- & Hi). apply nth_In. now apply Hrange.
Qed.

Lemma extremum_values_In (X : list Q) (v : Q) :
  In v (extremum_values X) -> In v X.
Proof.
  unfold extremum_values, maxima_values, minima_values. intros H.
  apply in_app_or in H.
  destruct H as [H|H]; (eapply fancy_index_In; [|exact H]);
    intros i Hi; eapply argrelextrema_in_range; exact Hi.
Qed.

(** X6.  Whatever the integer [t_relax], the sequence analysed is a
    suffix of the first component of the trajectory: samples are only
    ever dropped from the front.  Of [n] samples it keeps
    [min (abs t_relax) n] when [t_relax] is negative, and all but the
    first [min t_relax n] when it is not (so [t_relax = 0] keeps the
    whole trajectory). *)
Theorem relaxed_window_is_suffix (t_relax : Z) (sol : Trajectory) :
  let n := length sol in
  (exists transient, map fst sol = transient ++ relaxed_window t_relax sol)
  /\ length (relaxed_window t_relax sol)
     = (if (t_relax <? 0)%Z then Nat.min (Z.abs_nat t_relax) n
        else n - Nat.min (Z.to_nat t_relax) n)%nat.
Proof.
  intros n. unfold relaxed_window, slice_from. split.
  - eexists. symmetry. apply firstn_skipn.
  - cbv zeta. rewrite length_skipn, length_map.
    unfold Trajectory, State in *. subst n.
    destruct (Z.ltb_spec t_relax 0); lia.
Qed.

(** X3.  Every value in a returned extremum list is a sample of the
    first component of the trajectory integrated for its swept value:
    nothing is interpolated or invented. *)
Theorem extrema_are_trajectory_samples
    (model : Model) (par_start par_stop : Q) (par_tot : Z) (t0 t_stop dt : Q)
    (t_relax : Z) (w : World) (I_list Bif_list : list (list Q)) :
  fst (Biforcation model par_start par_stop par_tot t0 t_stop dt t_relax w)
    = inr (I_list, Bif_list) ->
  exists t values sols,
    arange t0 t_stop dt = inr t
    /\ linspace par_start par_stop par_tot = inr values
    /\ fst (integrate_sweep model initial_state t values w) = inr sols
    /\ forall j v, (j < length values)%nat ->
         In v (nth j Bif_list []) -> In v (map fst (nth j sols [])).
Proof.
  intros H. apply Biforcation_returns in H.
  destruct H as (t & values & sols & Ht & Hv & Hs & Hlen & Hds).
  exists t, values, sols. repeat (split; [assumption|]).
  intros j v Hj Hin.
  destruct (dataset_of_nth t_relax values sols j Hlen Hj) as [HnB _].
  rewrite <- Hds in HnB. simpl in HnB. rewrite HnB in Hin.
  apply extremum_values_In in Hin. unfold relaxed_window, slice_from in Hin.
  eapply In_skipn_In. exact Hin.
Qed.

Lemma strict_extrema_disjoint (X : list Q) (i : nat) :
  In i (argrelextrema X greater) -> ~ In i (argrelextrema X less).
Proof.
  rewrite !argrelextrema_contract by (apply greater_irreflexive || apply less_irreflexive).
  rewrite !strict_local_extrema_In, !greater_spec, !less_spec.
  intros (_ & H1 & _) (_ & H2 & _). exact (Qlt_irrefl _ (Qlt_trans _ _ _ H1 H2)).
Qed.

Lemma argrelextrema_NoDup (cmp : Q -> Q -> bool) (X : list Q) :
  NoDup (argrelextrema X cmp).
Proof.
  rewrite argrelextrema_filter. apply NoDup_filter, seq_NoDup.
Qed.

(** X4.  No location is reported both as a maximum and as a minimum,
    and a window of [n] samples gives at most [n - 2] extremum values
    (none when [n < 3]). *)
Theorem extremum_count_bounded (X : list Q) :
  (forall i, In i (argrelextrema X greater) -> ~ In i (argrelextrema X less))
  /\ (length (extremum_values X) <= length X - 2)%nat.
Proof.
  split; [apply strict_extrema_disjoint|].
  unfold extremum_values, maxima_values, minima_values, fancy_index.
  rewrite length_app, !length_map, <- length_app.
  assert (H : (length (argrelextrema X greater ++ argrelextrema X less)
               <= length (seq 1 (length X - 2)))%nat);
    [|now rewrite length_seq in H].
  apply NoDup_incl_length.
  - apply NoDup_app; [apply argrelextrema_NoDup | apply argrelextrema_NoDup |].
    apply strict_extrema_disjoint.
  - intros i Hi. apply in_app_or in Hi. apply in_seq.
    destruct Hi as [Hi|Hi];
      rewrite argrelextrema_contract in Hi
        by (apply greater_irreflexive || apply less_irreflexive);
      apply strict_local_extrema_In in Hi; lia.
Qed.

Lemma monotone_no_extrema (X : list Q) :
  monotone X -> extremum_values X = [].
Proof.
  intros Hmono.
  assert (Hnone : forall cmp, cmp = greater \/ cmp = less -> argrelextrema X cmp = []).
  { intros cmp Hcmp.
    destruct (argrelextrema X cmp) as [|i l] eqn:E; [reflexivity|]. exfalso.
    assert (Hin : In i (argrelextrema X cmp)) by (rewrite E; left; reflexivity).
    destruct Hcmp as [-> | ->];
      rewrite argrelextrema_contract in Hin
        by (apply greater_irreflexive || apply less_irreflexive);
      apply strict_local_extrema_In in Hin;
      rewrite ?greater_spec, ?less_spec in Hin;
      destruct Hin as (Hrange & Hprev & Hnext);
      destruct Hmono as [Hup|Hdown].
    - specialize (Hup i ltac:(lia)). replace (S i) with (i + 1)%nat in Hup by lia. lra.
    - specialize (Hdown (i - 1)%nat ltac:(lia)).
      replace (S (i - 1)) with i in Hdown by lia. lra.
    - specialize (Hup (i - 1)%nat ltac:(lia)).
      replace (S (i - 1)) with i in Hup by lia. lra.
    - specialize (Hdown i ltac:(lia)). replace (S i) with (i + 1)%nat in Hdown by lia. lra. }
  unfold extremum_values, maxima_values, minima_values.
  rewrite (Hnone greater), (Hnone less) by auto. reflexivity.
Qed.

Lemma monotone_suffix (n : nat) (X : list Q) :
  monotone X -> monotone (skipn n X).
Proof.
  intros [Hup|Hdown]; [left|right]; intros i Hi;
    rewrite length_skipn in Hi; rewrite !nth_skipn;
    replace (n + S i)%nat with (S (n + i)) by lia;
    [apply Hup | apply Hdown]; lia.
Qed.

Lemma dataset_of_empty (t_relax : Z) (values : list Q) :
  forall sols, length sols = length values ->
    Forall (fun sol => extremum_values (relaxed_window t_relax sol) = []) sols ->
    dataset_of t_relax values sols = (repeat [] (length values), repeat [] (length values)).
Proof.
  unfold dataset_of.
  induction values as [|i values IH]; intros [|sol sols] Hlen Hempty; simpl in *; try lia.
  - reflexivity.
  - inversion Hempty as [|? ? Hsol Hrest]; subst.
    specialize (IH sols ltac:(lia) Hrest). injection IH as HI HB.
    rewrite Hsol, HI, HB. reflexivity.
Qed.

(** X5.  A swept value whose trajectory has a monotone first
    component (it only rises, only falls, or sits at a fixed point)
    contributes no point to the diagram: its two entries are empty,
    whatever [t_relax]. *)
Theorem monotone_trajectories_give_no_extrema
    (model : Model) (par_start par_stop : Q) (par_tot : Z) (t0 t_stop dt : Q)
    (t_relax : Z) (w : World) (t values : list Q) (sols : list Trajectory) :
  arange t0 t_stop dt = inr t ->
  linspace par_start par_stop par_tot = inr values ->
  fst (integrate_sweep model initial_state t values w) = inr sols ->
  Forall (fun sol => monotone (map fst sol)) sols ->
  fst (Biforcation model par_start par_stop par_tot t0 t_stop dt t_relax w)
  = inr (repeat [] (length values), repeat [] (length values)).
Proof.
  intros Ht Hv Hs Hmono.
  rewrite (Biforcation_dataset model par_start par_stop par_tot t0 t_stop dt t_relax w
             t values sols Ht Hv Hs).
  assert (Hlen : length sols = length values).
  { destruct (integrate_sweep model initial_state t values w) as [r w'] eqn:E.
    simpl in Hs. subst r. eapply integrate_sweep_length. exact E. }
  assert (Hempty : Forall (fun sol => extremum_values (relaxed_window t_relax sol) = []) sols).
  { eapply Forall_impl; [|exact Hmono]. simpl. intros sol Hsol.
    apply monotone_no_extrema. unfold relaxed_window, slice_from.
    now apply monotone_suffix. }
  f_equal. now apply dataset_of_empty.
Qed.

End DatasetContents.

(** X3 on the oscillator sweep: the value 73/5 reported for stiffness
    2 is a sample of that trajectory. *)
Lemma extrema_are_trajectory_samples_run :
  exists t values sols,
    Grid.arange 0 10 1 = inr t
    /\ Grid.linspace 2 3 2 = inr values
    /\ fst (@integrate_sweep Euler.integrator oscillator initial_state t values 0%nat) = inr sols
    /\ In (73 # 5) (map fst (nth 0 sols [])).
Proof.
  destruct (@extrema_are_trajectory_samples Euler.integrator oscillator 2 3 2 0 10 1 (-8) 0%nat
              [[2; 2]; [3; 3]] [[73 # 5; -11 # 5]; [128 # 5; -16 # 5]] oscillator_sweep)
    as (t & values & sols & Ht & Hv & Hs & Hin).
  exists t, values, sols. repeat (split; [assumption|]).
  apply Hin.
  - vm_compute in Hv. inversion Hv. simpl. lia.
  - left. reflexivity.
Defined.

(** X5 on a sweep of the linear decay at rates 1 and 2: both
    trajectories only fall, the dataset is two empty entries. *)
Lemma monotone_trajectories_give_no_extrema_run :
  fst (@Biforcation Euler.integrator decay 1 2 2 0 1 (1 # 4) (-3) 0%nat)
  = inr ([[]; []], [[]; []]).
Proof.
  apply (@monotone_trajectories_give_no_extrema Euler.integrator decay 1 2 2 0 1 (1 # 4) (-3)
           0%nat
           [0 # 4; 1 # 4; 2 # 4; 3 # 4] [1; 2]
           [Euler.solve decay initial_state [0 # 4; 1 # 4; 2 # 4; 3 # 4] 1;
            Euler.solve decay initial_state [0 # 4; 1 # 4; 2 # 4; 3 # 4] 2]);
    try (vm_compute; reflexivity).
  apply Forall_cons; [|apply Forall_cons; [|apply Forall_nil]];
    right; intros i Hi;
    do 3 (destruct i as [|i]; [vm_compute; discriminate|]);
    simpl in Hi; lia.
Defined.

(** ** The Li-Rinzel vector field and its nullclines *)

Section LiRinzelField.
Import Astrocyte.

Lemma Q2_positive (g : Globals) (I : Q) :
  positive g -> 0 <= I -> 0 < d2 g * ((I + d1 g) / (I + d3 g)).
Proof.
  intros (_ & _ & _ & Hd1 & Hd2 & Hd3 & _) HI.
  apply Qmult_lt_0_compat; [exact Hd2|].
  apply Qlt_shift_div_l; lra.
Qed.

(** The gating equation without its fractions. *)
Lemma LiRinzel_gating (g : Globals) (I C h t : Q) :
  positive g -> 0 <= I -> 0 <= C ->
  let Q2 := d2 g * ((I + d1 g) / (I + d3 g)) in
  snd (LiRinzel g (C, h) t I) == a2 g * (Q2 * (1 - h) - h * C).
Proof.
  intros Hpos HI HC Q2.
  pose proof (Q2_positive g I Hpos HI) as HQ2. fold Q2 in HQ2.
  destruct Hpos as (_ & _ & _ & Hd1 & Hd2 & Hd3 & _ & _ & _ & _ & Ha2).
  unfold LiRinzel. cbn [snd]. fold Q2.
  field. clearbody Q2. split; lra.
Qed.

Lemma h_nunc1_range (g : Globals) (I C : Q) :
  positive g -> 0 <= I -> 0 <= C ->
  let Q2 := d2 g * ((I + d1 g) / (I + d3 g)) in
  h_nunc1 g I C * (Q2 + C) == Q2 /\ 0 < h_nunc1 g I C <= 1.
Proof.
  intros Hpos HI HC Q2.
  pose proof (Q2_positive g I Hpos HI) as HQ2. fold Q2 in HQ2.
  unfold h_nunc1. fold Q2. clearbody Q2.
  split; [field; lra|]. split.
  - apply Qlt_shift_div_l; lra.
  - apply Qle_shift_div_r; lra.
Qed.

Lemma h_nullcline_attracts_gating_core (g : Globals) (I C t : Q) :
  positive g -> 0 <= I -> 0 <= C ->
  snd (LiRinzel g (C, h_nunc1 g I C) t I) == 0 /\ 0 < h_nunc1 g I C <= 1.
Proof.
  intros Hpos HI HC.
  destruct (h_nunc1_range g I C Hpos HI HC) as [Hn Hr].
  split; [|exact Hr].
  rewrite (LiRinzel_gating g I C (h_nunc1 g I C) t Hpos HI HC).
  cbv zeta in *.
  set (Q2 := d2 g * ((I + d1 g) / (I + d3 g))) in *.
  setoid_replace (Q2 * (1 - h_nunc1 g I C) - h_nunc1 g I C * C)
    with (Q2 - h_nunc1 g I C * (Q2 + C)) by ring.
  rewrite Hn. ring.
Qed.

(** X9.  The first nullcline [LiRinzel_nunc] draws is the rest curve
    of the gating variable of [LiRinzel]: for positive constants and
    non-negative [I] and [C], [dh/dt] is zero at [h = h_nunc1], positive
    below it and negative above it, and the curve stays in (0, 1]. *)
Theorem h_nullcline_attracts_gating (g : Globals) (I C h t : Q) :
  positive g -> 0 <= I -> 0 <= C ->
  snd (LiRinzel g (C, h_nunc1 g I C) t I) == 0
  /\ (h < h_nunc1 g I C -> 0 < snd (LiRinzel g (C, h) t I))
  /\ (h_nunc1 g I C < h -> snd (LiRinzel g (C, h) t I) < 0)
  /\ 0 < h_nunc1 g I C <= 1.
Proof.
  intros Hpos HI HC.
  pose proof (Q2_positive g I Hpos HI) as HQ2.
  destruct (h_nunc1_range g I C Hpos HI HC) as [Hn Hr].
  pose proof (LiRinzel_gating g I C (h_nunc1 g I C) t Hpos HI HC) as Hat.
  pose proof (LiRinzel_gating g I C h t Hpos HI HC) as Hany.
  destruct Hpos as (_ & _ & _ & _ & _ & _ & _ & _ & _ & _ & Ha2).
  cbv zeta in *.
  set (Q2 := d2 g * ((I + d1 g) / (I + d3 g))) in *. clearbody Q2.
  set (hn := h_nunc1 g I C) in *. clearbody hn.
  set (a := a2 g) in *. clearbody a.
  assert (Hsum : 0 < Q2 + C) by lra.
  split; [|split; [|split; [|exact Hr]]].
  - rewrite Hat. setoid_replace (Q2 * (1 - hn) - hn * C) with (Q2 - hn * (Q2 + C)) by ring.
    rewrite Hn. ring.
  - intros Hlt. rewrite Hany.
    apply Qmult_lt_0_compat; [exact Ha2|].
    pose proof (Qmult_lt_compat_r _ _ (Q2 + C) Hsum Hlt) as Hm.
    setoid_replace (Q2 * (1 - h) - h * C) with (Q2 - h * (Q2 + C)) by ring. lra.
  - intros Hgt. rewrite Hany.
    pose proof (Qmult_lt_compat_r _ _ (Q2 + C) Hsum Hgt) as Hm.
    assert (Hneg : 0 < - (Q2 * (1 - h) - h * C)).
    { setoid_replace (- (Q2 * (1 - h) - h * C)) with (h * (Q2 + C) - Q2) by ring. lra. }
    pose proof (Qmult_lt_0_compat _ _ Ha2 Hneg) as Hp.
    setoid_replace (a * - (Q2 * (1 - h) - h * C)) with (- (a * (Q2 * (1 - h) - h * C))) in Hp
      by ring.
    lra.
Qed.

Lemma squares_positive (K C : Q) : 0 < K -> 0 < K ^ 2 + C ^ 2.
Proof.
  intros HK. pose proof (Qsqr_nonneg C).
  assert (0 < K ^ 2) by (apply Qpower_0_lt; exact HK). lra.
Qed.

(** X10.  The second nullcline [LiRinzel_nunc] draws separates rising
    from falling calcium: for positive constants, [I > 0] and
    [0 < C < C0 / (1 + c1)], [dC/dt] of [LiRinzel] is a positive factor
    times the difference between [h^3] and the value [R] the program
    takes the cube root of.  So calcium rises where [h^3 > R] (above
    the nullcline) and falls where [h^3 < R] (below it). *)
Theorem calcium_flow_across_C_nullcline (g : Globals) (I C h t : Q) :
  positive g -> 0 < I -> 0 < C -> (1 + c1 g) * C < C0 g ->
  let D := v1 g * ((I / (I + d1 g)) * (C / (C + d5 g))) ^ 3 * (C0 g - (1 + c1 g) * C) in
  let R := h_nunc2_cubed g I C in
  0 < D
  /\ fst (LiRinzel g (C, h) t I) == D * (h ^ 3 - R)
  /\ (R < h ^ 3 -> 0 < fst (LiRinzel g (C, h) t I))
  /\ (h ^ 3 < R -> fst (LiRinzel g (C, h) t I) < 0).
Proof.
  intros Hpos HI HC Hmax D R.
  pose proof (squares_positive (K3 g) C) as Hsq.
  destruct Hpos as (Hv1 & Hv2 & Hv3 & Hd1 & Hd2 & Hd3 & Hd5 & HC0 & HK3 & Hc1 & Ha2).
  specialize (Hsq HK3).
  assert (Hm : 0 < (I / (I + d1 g)) * (C / (C + d5 g))).
  { apply Qmult_lt_0_compat; apply Qlt_shift_div_l; lra. }
  assert (HD : 0 < D).
  { subst D. apply Qmult_lt_0_compat; [|lra].
    apply Qmult_lt_0_compat; [exact Hv1|]. apply Qpower_0_lt. exact Hm. }
  assert (Hflow : fst (LiRinzel g (C, h) t I) == D * (h ^ 3 - R)).
  { subst D R. unfold LiRinzel, h_nunc2_cubed. cbn [fst].
    field. repeat split; lra. }
  split; [exact HD|]. split; [exact Hflow|]. split.
  - intros Habove. rewrite Hflow. apply Qmult_lt_0_compat; [exact HD | lra].
  - intros Hbelow. rewrite Hflow.
    assert (Hneg : 0 < D * (R - h ^ 3)) by (apply Qmult_lt_0_compat; [exact HD | lra]).
    assert (E : D * (R - h ^ 3) == - (D * (h ^ 3 - R))) by ring.
    rewrite E in Hneg. lra.
Qed.

(** X11.  The field points into the box [0 <= C <= C0 / (1 + c1)],
    [0 <= h <= 1] on each of its sides (positive constants, [I >= 0]):
    at [C = 0] calcium rises at the leak rate [v2 C0], at
    [C = C0 / (1 + c1)] it falls, at [h = 0] the gating variable rises
    and at [h = 1] it does not rise.  The state the sweep starts from
    lies in the box of the script's constants. *)
Theorem LiRinzel_points_into_box (g : Globals) (I C h t : Q) :
  positive g -> 0 <= I ->
  fst (LiRinzel g (0, h) t I) == v2 g * C0 g
  /\ 0 < fst (LiRinzel g (0, h) t I)
  /\ fst (LiRinzel g (C0 g / (1 + c1 g), h) t I) < 0
  /\ (0 <= C -> 0 < snd (LiRinzel g (C, 0) t I))
  /\ (0 <= C -> snd (LiRinzel g (C, 1) t I) <= 0)
  /\ (forall K, 0 <= fst initial_state
               /\ fst initial_state * (1 + c1 (script_globals K)) <= C0 (script_globals K)
               /\ 0 <= snd initial_state <= 1).
Proof.
  intros Hpos HI.
  pose proof (Q2_positive g I Hpos HI) as HQ2.
  assert (Hg0 : 0 <= C -> snd (LiRinzel g (C, 0) t I)
                          == a2 g * (d2 g * ((I + d1 g) / (I + d3 g)) * (1 - 0) - 0 * C))
    by (intros HC; now apply LiRinzel_gating).
  assert (Hg1 : 0 <= C -> snd (LiRinzel g (C, 1) t I)
                          == a2 g * (d2 g * ((I + d1 g) / (I + d3 g)) * (1 - 1) - 1 * C))
    by (intros HC; now apply LiRinzel_gating).
  pose proof (squares_positive (K3 g) (C0 g / (1 + c1 g))) as Hsq.
  destruct Hpos as (Hv1 & Hv2 & Hv3 & Hd1 & Hd2 & Hd3 & Hd5 & HC0 & HK3 & Hc1 & Ha2).
  specialize (Hsq HK3).
  assert (Hzero : fst (LiRinzel g (0, h) t I) == v2 g * C0 g).
  { unfold LiRinzel. cbn [fst]. field. repeat split; lra. }
  assert (Hrate : 0 < v2 g * C0 g) by now apply Qmult_lt_0_compat.
  assert (Hcmax : 0 < C0 g / (1 + c1 g)) by (apply Qlt_shift_div_l; lra).
  split; [exact Hzero|]. split; [rewrite Hzero; exact Hrate|]. split; [|split; [|split]].
  - unfold LiRinzel. cbn [fst].
    set (Cm := C0 g / (1 + c1 g)) in *.
    assert (Hfull : C0 g - (1 + c1 g) * Cm == 0) by (subst Cm; field; lra).
    rewrite Hfull, !Qmult_0_r, Qplus_0_l.
    assert (Hpump : 0 < v3 g * Cm ^ 2 / (K3 g ^ 2 + Cm ^ 2)).
    { apply Qlt_shift_div_l; [exact Hsq|]. rewrite Qmult_0_l.
      apply Qmult_lt_0_compat; [exact Hv3|]. apply Qpower_0_lt. exact Hcmax. }
    lra.
  - intros HC. rewrite (Hg0 HC).
    apply Qmult_lt_0_compat; [exact Ha2|]. lra.
  - intros HC. rewrite (Hg1 HC).
    setoid_replace (a2 g * (d2 g * ((I + d1 g) / (I + d3 g)) * (1 - 1) - 1 * C))
      with (- (a2 g * C)) by ring.
    pose proof (Qmult_le_0_compat _ _ (Qlt_le_weak _ _ Ha2) HC). lra.
  - intros K. vm_compute. repeat split; discriminate.
Qed.

End LiRinzelField.

(** The constants of the script are positive when [K3] is. *)
Lemma script_globals_positive (K : Q) :
  0 < K -> Astrocyte.positive (Astrocyte.script_globals K).
Proof.
  intros HK. unfold Astrocyte.positive. simpl.
  repeat split; first [exact HK | reflexivity].
Qed.

(** X10 at the script's constants with [K3 = 1/10], [I = 4/10],
    [C = 1/10]: at [h = 7/10] the cube 0.343 is above [R] and calcium
    rises. *)
Lemma calcium_flow_across_C_nullcline_run :
  Astrocyte.h_nunc2_cubed (Astrocyte.script_globals (1 # 10)) (4 # 10) (1 # 10) < (7 # 10) ^ 3
  /\ 0 < fst (Astrocyte.LiRinzel (Astrocyte.script_globals (1 # 10)) (1 # 10, 7 # 10) 0
               (4 # 10)).
Proof.
  assert (Habove : Astrocyte.h_nunc2_cubed (Astrocyte.script_globals (1 # 10)) (4 # 10) (1 # 10)
                   < (7 # 10) ^ 3) by (vm_compute; reflexivity).
  split; [exact Habove|].
  exact (proj1 (proj2 (proj2
           (calcium_flow_across_C_nullcline (Astrocyte.script_globals (1 # 10))
              (4 # 10) (1 # 10) (7 # 10) 0
              (script_globals_positive (1 # 10) eq_refl) eq_refl eq_refl eq_refl)))
         Habove).
Defined.

(** X9 at the script's constants with [K3 = 1/10], [I = 4/10],
    [C = 2/10]. *)
Lemma h_nullcline_attracts_gating_run :
  snd (Astrocyte.LiRinzel (Astrocyte.script_globals (1 # 10))
         (2 # 10, Astrocyte.h_nunc1 (Astrocyte.script_globals (1 # 10)) (4 # 10) (2 # 10))
         0 (4 # 10)) == 0.
Proof.
  refine (proj1 (h_nullcline_attracts_gating (Astrocyte.script_globals (1 # 10))
                   (4 # 10) (2 # 10) 0 0 (script_globals_positive (1 # 10) eq_refl) _ _));
    discriminate.
Defined.

(** X11 at the script's constants with [K3 = 1/10], [I = 4/10]. *)
Lemma LiRinzel_points_into_box_run :
  0 < fst (Astrocyte.LiRinzel (Astrocyte.script_globals (1 # 10)) (0, 2 # 10) 0 (4 # 10)).
Proof.
  refine (proj1 (proj2 (LiRinzel_points_into_box (Astrocyte.script_globals (1 # 10))
                          (4 # 10) 0 (2 # 10) 0
                          (script_globals_positive (1 # 10) eq_refl) _)));
    discriminate.
Defined.

(** ** The nullcline arrays *)

Section Nullclines.
Import Astrocyte.

(** X12.  [LiRinzel_nunc] fails with [ValueError] for a negative
    [steps]; otherwise, for positive constants, [I >= 0] and
    [0 <= C_start <= C_stop], it returns three arrays of [steps] samples
    each, and every point [(C, h)] of the first nullcline lies
    in [C_start <= C <= C_stop], [0 < h <= 1] and is a rest point of
    the gating equation of [LiRinzel]. *)
Theorem LiRinzel_nunc_first_nullcline (g : Globals) (I C_start C_stop : Q) (steps : Z) :
  positive g -> 0 <= I -> 0 <= C_start -> C_start <= C_stop ->
  ((steps < 0)%Z -> LiRinzel_nunc g I C_start C_stop steps = inl ValueError)
  /\ ((0 <= steps)%Z ->
        exists C_nunc h_nunc h_cubes,
          LiRinzel_nunc g I C_start C_stop steps = inr (C_nunc, h_nunc, h_cubes)
          /\ length C_nunc = Z.to_nat steps
          /\ length h_nunc = Z.to_nat steps
          /\ length h_cubes = Z.to_nat steps
          /\ forall k t, (k < Z.to_nat steps)%nat ->
               let C := nth k C_nunc 0 in
               let h := nth k h_nunc 0 in
               C_start <= C <= C_stop
               /\ 0 < h <= 1
               /\ snd (LiRinzel g (C, h) t I) == 0).
Proof.
  intros Hpos HI Hstart Hstop. unfold LiRinzel_nunc. split.
  - intros Hneg. rewrite linspace_negative by exact Hneg. reflexivity.
  - intros Hsteps.
    destruct (linspace_returns C_start C_stop steps Hsteps) as (C_nunc & Hv & Hlen).
    rewrite Hv. exists C_nunc, (map (h_nunc1 g I) C_nunc), (map (h_nunc2_cubed g I) C_nunc).
    split; [reflexivity|]. split; [exact Hlen|]. split; [now rewrite length_map|].
    split; [now rewrite length_map|].
    intros k t Hk.
    set (C := nth k C_nunc 0). set (h := nth k (map (h_nunc1 g I) C_nunc) 0).
    pose proof (linspace_between C_start C_stop steps C_nunc Hstop Hv) as Hbet.
    rewrite Forall_forall in Hbet.
    assert (HC : C_start <= C <= C_stop).
    { apply Hbet. subst C. apply nth_In. lia. }
    assert (Hh : h = h_nunc1 g I C).
    { subst h C. apply nth_map_inside. lia. }
    assert (HC0 : 0 <= C) by lra.
    destruct (h_nullcline_attracts_gating_core g I C t Hpos HI HC0) as [Hzero Hrange].
    rewrite Hh. split; [exact HC|]. split; [exact Hrange | exact Hzero].
Qed.

End Nullclines.

(** X12 on the default call [LiRinzel_nunc()] of line 183, at the
    script's constants with [K3 = 1/10] and [I = 4/10]. *)
Lemma LiRinzel_nunc_first_nullcline_run :
  exists C_nunc h_nunc h_cubes,
    Astrocyte.LiRinzel_nunc (Astrocyte.script_globals (1 # 10)) (4 # 10) 0 (8 # 10) 1000
      = inr (C_nunc, h_nunc, h_cubes)
    /\ length C_nunc = 1000%nat /\ length h_nunc = 1000%nat.
Proof.
  destruct (proj2 (LiRinzel_nunc_first_nullcline (Astrocyte.script_globals (1 # 10))
                     (4 # 10) 0 (8 # 10) 1000
                     (script_globals_positive (1 # 10) eq_refl)
                     ltac:(discriminate) ltac:(discriminate) ltac:(discriminate))
                  ltac:(lia))
    as (C_nunc & h_nunc & h_cubes & Heq & HlC & Hlh & _).
  exists C_nunc, h_nunc, h_cubes. split; [exact Heq|]. split; [exact HlC | exact Hlh].
Defined.

(** ** The spike code of a synapse and the release code of an astrocyte *)

Section EventCode.
Import Gliotransmission.

(** X13.  A presynaptic spike keeps the synapse in range and moves
    resources without creating any: with [U_0__star], [alpha],
    [Gamma_S], [u_S] and [x_S] in [0, 1] before the spike, afterwards
    [u_S] has not decreased and is at most 1, the released fraction
    [r_S] is between 0 and the resources that were available, what is
    left plus what was released is what was available, and the
    neurotransmitter has grown by [rho_c Y_T r_S]. *)
Theorem syn_action_conserves_resources (k : SynapseConstants) (s : Synapse) :
  0 <= U_0__star k <= 1 -> 0 <= alpha k <= 1 -> 0 <= rho_c k -> 0 <= Y_T k ->
  0 <= Gamma_S s <= 1 -> 0 <= u_S s <= 1 -> 0 <= x_S s <= 1 ->
  let s' := syn_action k s in
  u_S s <= u_S s' <= 1
  /\ 0 <= r_S s' <= x_S s
  /\ x_S s' + r_S s' == x_S s
  /\ 0 <= x_S s' <= 1
  /\ Y_S s' - Y_S s == rho_c k * Y_T k * r_S s'
  /\ Y_S s <= Y_S s'
  /\ Gamma_S s' = Gamma_S s.
Proof.
  intros [HU0 HU1] [Ha0 Ha1] Hrho HYT [HG0 HG1] [Hu0 Hu1] [Hx0 Hx1] s'.
  subst s'. unfold syn_action. cbn [u_S x_S Y_S Gamma_S r_S].
  set (G := Gamma_S s) in *. set (u := u_S s) in *. set (x := x_S s) in *.
  set (Us := U_0__star k) in *. set (al := alpha k) in *.
  set (U_0 := (1 - G) * Us + al * G).
  assert (HU : 0 <= U_0 <= 1).
  { subst U_0.
    pose proof (Qmult_le_0_compat (1 - G) Us ltac:(lra) HU0).
    pose proof (Qmult_le_0_compat al G Ha0 HG0).
    pose proof (Qmult_le_0_compat (1 - G) (1 - Us) ltac:(lra) ltac:(lra)).
    pose proof (Qmult_le_0_compat (1 - al) G ltac:(lra) HG0).
    split; [lra|].
    assert (E : 1 - ((1 - G) * Us + al * G) == (1 - G) * (1 - Us) + (1 - al) * G) by ring.
    lra. }
  set (u' := u + U_0 * (1 - u)).
  assert (Hu' : u <= u' <= 1).
  { subst u'. destruct HU as [HUa HUb].
    pose proof (Qmult_le_0_compat U_0 (1 - u) HUa ltac:(lra)).
    pose proof (Qmult_le_0_compat (1 - U_0) (1 - u) ltac:(lra) ltac:(lra)).
    assert (E : 1 - (u + U_0 * (1 - u)) == (1 - U_0) * (1 - u)) by ring.
    split; lra. }
  set (r := u' * x).
  assert (Hr : 0 <= r <= x).
  { subst r. destruct Hu' as [Hua Hub].
    pose proof (Qmult_le_0_compat u' x ltac:(lra) Hx0).
    pose proof (Qmult_le_0_compat (1 - u') x ltac:(lra) Hx0).
    assert (E : x - u' * x == (1 - u') * x) by ring.
    split; lra. }
  pose proof (Qmult_le_0_compat _ _ (Qmult_le_0_compat _ _ Hrho HYT) (proj1 Hr)) as HY.
  split; [exact Hu'|]. split; [exact Hr|]. split; [ring|]. split; [lra|].
  split; [ring|]. split; [lra | reflexivity].
Qed.

Lemma astro_release_step (k : ReleaseConstants) (a : Release) :
  x_A (astro_release k a) == (1 - U_A k) * x_A a
  /\ G_A (astro_release k a) == G_A a + rho_e k * G_T k * (x_A a - x_A (astro_release k a)).
Proof.
  unfold astro_release. cbn [x_A G_A]. split; ring.
Qed.

(** X14.  Releases in a row draw on a finite store: with
    [0 <= U_A <= 1] and non-negative [rho_e], [G_T] and [x_A], after [n]
    releases with no recovery in between the available fraction is
    [(1 - U_A)^n] of what it was, the gliotransmitter added is
    [rho_e G_T] times the fraction used up, and so never more than
    [rho_e G_T x_A] however many releases there are. *)
Theorem releases_draw_on_finite_store (k : ReleaseConstants) (n : nat) (a : Release) :
  0 <= U_A k <= 1 -> 0 <= rho_e k -> 0 <= G_T k -> 0 <= x_A a ->
  let a' := releases k n a in
  x_A a' == (1 - U_A k) ^ Z.of_nat n * x_A a
  /\ 0 <= x_A a' <= x_A a
  /\ G_A a' == G_A a + rho_e k * G_T k * (x_A a - x_A a')
  /\ G_A a <= G_A a' <= G_A a + rho_e k * G_T k * x_A a.
Proof.
  intros [HU0 HU1] Hrho HGT. revert a.
  assert (Hscale : 0 <= rho_e k * G_T k) by now apply Qmult_le_0_compat.
  induction n as [|n IH]; intros a Hx a'; subst a'.
  - cbn [releases]. change (Z.of_nat 0) with 0%Z.
    split; [simpl; ring|]. split; [lra|]. split; [ring|].
    pose proof (Qmult_le_0_compat _ _ Hscale Hx). lra.
  - cbn [releases].
    destruct (astro_release_step k a) as [Hx1 HG1].
    assert (Hx1' : 0 <= x_A (astro_release k a) <= x_A a).
    { pose proof (Qmult_le_0_compat (1 - U_A k) (x_A a) ltac:(lra) Hx).
      pose proof (Qmult_le_0_compat (U_A k) (x_A a) HU0 Hx).
      assert (E : x_A a - (1 - U_A k) * x_A a == U_A k * x_A a) by ring.
      rewrite Hx1. split; lra. }
    destruct (IH (astro_release k a) (proj1 Hx1')) as (Hxn & Hrange & HGn & _).
    set (b := astro_release k a) in *. set (c := releases k n b) in *.
    assert (Hpow : (1 - U_A k) ^ Z.of_nat (S n) == (1 - U_A k) ^ Z.of_nat n * (1 - U_A k)).
    { replace (Z.of_nat (S n)) with (Z.of_nat n + 1)%Z by lia.
      rewrite Qpower_plus' by lia. simpl (_ ^ 1). reflexivity. }
    split; [rewrite Hxn, Hx1, Hpow; ring|].
    split; [lra|].
    assert (HG : G_A c == G_A a + rho_e k * G_T k * (x_A a - x_A c)).
    { rewrite HGn, HG1. ring. }
    split; [exact HG|].
    pose proof (Qmult_le_0_compat _ _ Hscale (proj1 Hrange)).
    pose proof (Qmult_le_0_compat (rho_e k * G_T k) (x_A a - x_A c) Hscale ltac:(lra)).
    assert (E : rho_e k * G_T k * (x_A a - x_A c)
                == rho_e k * G_T k * x_A a - rho_e k * G_T k * x_A c) by ring.
    rewrite HG. split; lra.
Qed.

End EventCode.

(** X13 at the constants of the scripts ([U_0__star = 0.6],
    [alpha = 0], [rho_c = 0.005], [Y_T = 500] mM) for the first spike
    of a fresh synapse ([x_S = 1], the rest 0): 0.6 of the resources
    are released and 0.4 are left. *)
Lemma syn_action_conserves_resources_run :
  let k := {| Gliotransmission.U_0__star := 6 # 10; Gliotransmission.alpha := 0;
              Gliotransmission.rho_c := 5 # 1000; Gliotransmission.Y_T := 500 |} in
  let s := {| Gliotransmission.u_S := 0; Gliotransmission.x_S := 1;
              Gliotransmission.Y_S := 0; Gliotransmission.Gamma_S := 0;
              Gliotransmission.r_S := 0 |} in
  Gliotransmission.x_S (Gliotransmission.syn_action k s)
  + Gliotransmission.r_S (Gliotransmission.syn_action k s) == 1
  /\ Gliotransmission.r_S (Gliotransmission.syn_action k s) == 6 # 10.
Proof.
  intros k s.
  assert (Hunit : forall q : Q, 0 <= q -> q <= 1 -> 0 <= q <= 1) by (intros; split; assumption).
  pose proof (syn_action_conserves_resources k s
                (Hunit (6 # 10) ltac:(discriminate) ltac:(discriminate))
                (Hunit 0 ltac:(discriminate) ltac:(discriminate))
                ltac:(discriminate) ltac:(discriminate)
                (Hunit 0 ltac:(discriminate) ltac:(discriminate))
                (Hunit 0 ltac:(discriminate) ltac:(discriminate))
                (Hunit 1 ltac:(discriminate) ltac:(discriminate))) as H.
  split; [exact (proj1 (proj2 (proj2 H))) | reflexivity].
Defined.

(** X14 at the constants of the network script ([rho_e = 6.5e-4],
    [G_T = 200] mM, [U_A = 0.6]) for three releases from a full store. *)
Lemma releases_draw_on_finite_store_run :
  let k := {| Gliotransmission.rho_e := 65 # 100000; Gliotransmission.G_T := 200;
              Gliotransmission.U_A := 6 # 10 |} in
  let a := {| Gliotransmission.G_A := 0; Gliotransmission.x_A := 1 |} in
  Gliotransmission.G_A (Gliotransmission.releases k 3 a) <= 0 + (65 # 100000) * 200 * 1.
Proof.
  intros k a.
  assert (HU : 0 <= Gliotransmission.U_A k <= 1) by (split; discriminate).
  exact (proj2 (proj2 (proj2 (proj2
           (releases_draw_on_finite_store k 3 a HU
              ltac:(discriminate) ltac:(discriminate) ltac:(discriminate)))))).
Defined.

(** ** The neuron lattice *)

Section Lattice.
Import Network.

Lemma concat_tiles_nth {B : Type} (x : list Q) (ys : list B) (k : nat) :
  (k < length x * length ys)%nat ->
  nth k (concat (map (fun _ : B => x) ys)) 0 = nth (k mod length x) x 0.
Proof.
  revert k. induction ys as [|y ys IH]; intros k Hk; simpl in *; [lia|].
  assert (Hx : (0 < length x)%nat) by (destruct x; simpl in *; lia).
  destruct (Nat.lt_ge_cases k (length x)) as [Hlt|Hge].
  - rewrite app_nth1 by exact Hlt. now rewrite Nat.mod_small.
  - rewrite app_nth2 by exact Hge. rewrite IH by nia.
    f_equal. replace k with ((k - length x) + 1 * length x)%nat at 2 by lia.
    now rewrite Nat.Div0.mod_add.
Qed.

Lemma concat_rows_nth (x ys : list Q) (k : nat) :
  (k < length x * length ys)%nat ->
  nth k (concat (map (fun v : Q => map (fun _ : Q => v) x) ys)) 0 = nth (k / length x) ys 0.
Proof.
  revert k. induction ys as [|y ys IH]; intros k Hk; simpl in *; [lia|].
  assert (Hx : (0 < length x)%nat) by (destruct x; simpl in *; lia).
  destruct (Nat.lt_ge_cases k (length x)) as [Hlt|Hge].
  - rewrite app_nth1 by now rewrite length_map.
    rewrite Nat.div_small by exact Hlt.
    rewrite (nth_map_inside (fun _ : Q => y) x k 0 0) by exact Hlt. reflexivity.
  - rewrite app_nth2 by now rewrite length_map.
    rewrite length_map, IH by nia.
    replace k with ((k - length x) + 1 * length x)%nat at 2 by lia.
    rewrite Nat.div_add by lia.
    replace (((k - length x) / length x + 1))%nat with (S ((k - length x) / length x)) by lia.
    reflexivity.
Qed.

Lemma arange_to_length (stop : Q) : length (arange_to stop) = Z.to_nat (Qceiling stop).
Proof. unfold arange_to. now rewrite length_map, length_seq. Qed.

Lemma arange_to_nth (stop : Q) (j : nat) :
  (j < Z.to_nat (Qceiling stop))%nat -> nth j (arange_to stop) 0 = inject_Z (Z.of_nat j).
Proof. intros Hj. unfold arange_to. now rewrite nth_map_seq. Qed.


Lemma concat_tiles_length {B : Type} (x : list Q) (ys : list B) :
  length (concat (map (fun _ : B => x) ys)) = (length x * length ys)%nat.
Proof.
  induction ys as [|y ys IH]; simpl; [lia|]. rewrite length_app, IH. lia.
Qed.

Lemma concat_rows_length (x ys : list Q) :
  length (concat (map (fun v : Q => map (fun _ : Q => v) x) ys)) = (length x * length ys)%nat.
Proof.
  induction ys as [|y ys IH]; simpl; [lia|]. rewrite length_app, length_map, IH. lia.
Qed.

(** A lattice site [m] steps along a side is inside the square when
    [m * rows < N_e]. *)
Lemma site_inside (N_e rows m : nat) (size : Q) :
  (0 < rows)%nat -> (m * rows < N_e)%nat -> 0 < size ->
  let grid_dist := size / (inject_Z (Z.of_nat N_e) / inject_Z (Z.of_nat rows)) in
  0 <= inject_Z (Z.of_nat m) * grid_dist < size.
Proof.
  intros Hrows Hm Hsize grid_dist.
  assert (HN : 0 < inject_Z (Z.of_nat N_e))
    by (change 0 with (inject_Z 0); rewrite <- Zlt_Qlt; lia).
  assert (Hr : 0 < inject_Z (Z.of_nat rows))
    by (change 0 with (inject_Z 0); rewrite <- Zlt_Qlt; lia).
  assert (Hm0 : 0 <= inject_Z (Z.of_nat m))
    by (change 0 with (inject_Z 0); rewrite <- Zle_Qle; lia).
  assert (Hgd : grid_dist * inject_Z (Z.of_nat N_e) == size * inject_Z (Z.of_nat rows)).
  { subst grid_dist. field. split; lra. }
  assert (Hgpos : 0 < grid_dist).
  { apply (Qmult_lt_r _ _ _ HN). rewrite Hgd, Qmult_0_l.
    now apply Qmult_lt_0_compat. }
  split.
  - apply Qmult_le_0_compat; [exact Hm0 | lra].
  - apply (Qmult_lt_r _ _ _ HN).
    setoid_replace (inject_Z (Z.of_nat m) * grid_dist * inject_Z (Z.of_nat N_e))
      with (size * (inject_Z (Z.of_nat m) * inject_Z (Z.of_nat rows)))
      by (rewrite <- Qmult_assoc, Hgd; ring).
    apply (Qmult_lt_l _ _ _ Hsize).
    rewrite <- inject_Z_mult, <- Zlt_Qlt. lia.
Qed.

Lemma grid_dist_positive (N_e rows : nat) (size : Q) :
  (0 < rows)%nat -> (0 < N_e)%nat -> 0 < size ->
  0 < size / (inject_Z (Z.of_nat N_e) / inject_Z (Z.of_nat rows)).
Proof.
  intros Hrows HNe Hsize.
  assert (HN : 0 < inject_Z (Z.of_nat N_e))
    by (change 0 with (inject_Z 0); rewrite <- Zlt_Qlt; lia).
  assert (Hr : 0 < inject_Z (Z.of_nat rows))
    by (change 0 with (inject_Z 0); rewrite <- Zlt_Qlt; lia).
  apply Qlt_shift_div_l; [apply Qlt_shift_div_l; lra | lra].
Qed.

(** X15.  The network script gives every excitatory neuron a lattice
    site of its own inside the square: for [N_e >= 1] neurons and a
    positive [size], neuron [k] sits at column [k mod rows] and row
    [k / rows] (with [rows] the integer square root of [N_e]), a
    [grid_dist] apart, both coordinates are at least 0 and below
    [size], and no two neurons share a site.  With [N_e = 0] the
    division by [rows = 0] raises. *)
Theorem neuron_positions_on_lattice (N_e : nat) (size : Q) :
  let rows := Nat.sqrt N_e in
  let grid_dist := size / (inject_Z (Z.of_nat N_e) / inject_Z (Z.of_nat rows)) in
  (N_e = 0%nat -> neuron_positions N_e size = inl ZeroDivisionError)
  /\ ((0 < N_e)%nat -> 0 < size ->
       exists xs ys,
         neuron_positions N_e size = inr (xs, ys)
         /\ length xs = N_e /\ length ys = N_e
         /\ (forall k, (k < N_e)%nat ->
               nth k xs 0 = inject_Z (Z.of_nat (k mod rows)) * grid_dist
               /\ nth k ys 0 = inject_Z (Z.of_nat (k / rows)) * grid_dist
               /\ 0 <= nth k xs 0 < size /\ 0 <= nth k ys 0 < size)
         /\ (forall j k, (j < N_e)%nat -> (k < N_e)%nat ->
               nth j xs 0 == nth k xs 0 -> nth j ys 0 == nth k ys 0 -> j = k)).
Proof.
  intros rows grid_dist. split; [intros ->; reflexivity|].
  intros HNe Hsize.
  pose proof (Nat.sqrt_spec N_e ltac:(lia)) as [Hsq Hsq']. fold rows in Hsq, Hsq'.
  assert (Hrows : (0 < rows)%nat) by (destruct rows; [simpl in Hsq'; lia | lia]).
  set (Nq := inject_Z (Z.of_nat N_e)) in *.
  set (rq := inject_Z (Z.of_nat rows)) in *.
  assert (HN : 0 < Nq) by (subst Nq; change 0 with (inject_Z 0); rewrite <- Zlt_Qlt; lia).
  assert (Hr : 0 < rq) by (subst rq; change 0 with (inject_Z 0); rewrite <- Zlt_Qlt; lia).
  set (cols := Z.to_nat (Qceiling (Nq / rq))).
  assert (Hcover : (N_e <= rows * cols)%nat).
  { pose proof (Qle_ceiling (Nq / rq)) as Hc.
    assert (Hc' : Nq <= inject_Z (Qceiling (Nq / rq)) * rq).
    { pose proof (Qmult_le_compat_r _ _ rq Hc (Qlt_le_weak _ _ Hr)) as Hm.
      assert (E : Nq / rq * rq == Nq) by (field; lra).
      rewrite E in Hm. exact Hm. }
    subst Nq rq. rewrite <- inject_Z_mult, <- Zle_Qle in Hc'. subst cols. nia. }
  set (x := arange_to rq). set (y := arange_to (Nq / rq)).
  assert (Hlx : length x = rows).
  { subst x rq. rewrite arange_to_length, Qceiling_Z. lia. }
  assert (Hly : length y = cols) by (subst y; apply arange_to_length).
  exists (map (fun v => v * grid_dist) (firstn N_e (concat (map (fun _ : Q => x) y)))),
         (map (fun v => v * grid_dist)
              (firstn N_e (concat (map (fun v : Q => map (fun _ : Q => v) x) y)))).
  assert (HlX : length (firstn N_e (concat (map (fun _ : Q => x) y))) = N_e).
  { rewrite length_firstn, concat_tiles_length, Hlx, Hly. lia. }
  assert (HlY : length (firstn N_e (concat (map (fun v : Q => map (fun _ : Q => v) x) y))) = N_e).
  { rewrite length_firstn, concat_rows_length, Hlx, Hly. lia. }
  assert (Hnth : forall k, (k < N_e)%nat ->
            nth k (map (fun v => v * grid_dist) (firstn N_e (concat (map (fun _ : Q => x) y)))) 0
              = inject_Z (Z.of_nat (k mod rows)) * grid_dist
            /\ nth k (map (fun v => v * grid_dist)
                        (firstn N_e (concat (map (fun v : Q => map (fun _ : Q => v) x) y)))) 0
              = inject_Z (Z.of_nat (k / rows)) * grid_dist).
  { intros k Hk.
    assert (Hmod : (k mod rows < rows)%nat) by (apply Nat.mod_upper_bound; lia).
    assert (Hdiv : (k / rows < cols)%nat) by (apply Nat.Div0.div_lt_upper_bound; lia).
    split.
    - rewrite (nth_map_inside _ _ k 0 0) by lia.
      rewrite nth_firstn. replace (k <? N_e)%nat with true by (symmetry; apply Nat.ltb_lt; lia).
      rewrite concat_tiles_nth by (rewrite Hlx, Hly; lia).
      rewrite Hlx. subst x. rewrite arange_to_nth; [reflexivity|].
      subst rq. rewrite Qceiling_Z. lia.
    - rewrite (nth_map_inside _ _ k 0 0) by lia.
      rewrite nth_firstn. replace (k <? N_e)%nat with true by (symmetry; apply Nat.ltb_lt; lia).
      rewrite concat_rows_nth by (rewrite Hlx, Hly; lia).
      rewrite Hlx. subst y. rewrite arange_to_nth; [reflexivity|]. fold cols. lia. }
  split.
  { unfold neuron_positions. fold rows.
    replace (rows =? 0)%nat with false by (symmetry; apply Nat.eqb_neq; lia).
    reflexivity. }
  split; [now rewrite length_map|]. split; [now rewrite length_map|]. split.
  - intros k Hk. destruct (Hnth k Hk) as [Hx Hy].
    assert (Hmod : (k mod rows < rows)%nat) by (apply Nat.mod_upper_bound; lia).
    pose proof (Nat.Div0.mul_div_le k rows) as Hdl.
    split; [exact Hx|]. split; [exact Hy|]. rewrite Hx, Hy. split.
    + apply (site_inside N_e rows (k mod rows) size); [lia | nia | exact Hsize].
    + apply (site_inside N_e rows (k / rows) size); [lia | nia | exact Hsize].
  - intros j k Hj Hk Hxe Hye.
    destruct (Hnth j Hj) as [Hxj Hyj]. destruct (Hnth k Hk) as [Hxk Hyk].
    rewrite Hxj, Hxk in Hxe. rewrite Hyj, Hyk in Hye.
    pose proof (grid_dist_positive N_e rows size Hrows HNe Hsize) as Hgd.
    fold Nq rq grid_dist in Hgd.
    assert (Hcancel : forall a b : nat,
              inject_Z (Z.of_nat a) * grid_dist == inject_Z (Z.of_nat b) * grid_dist -> a = b).
    { intros a b E.
      apply Qmult_inj_r in E;
        [|intros E0; rewrite E0 in Hgd; exact (Qlt_irrefl _ Hgd)].
      apply (proj1 (inject_Z_injective _ _)) in E. lia. }
    apply Hcancel in Hxe. apply Hcancel in Hye.
    rewrite (Nat.div_mod_eq j rows), (Nat.div_mod_eq k rows). congruence.
Qed.
End Lattice.

(** X15 at the values of the script: 20 neurons on a square of side
    3.75 (mm). *)
Lemma neuron_positions_on_lattice_run :
  exists xs ys,
    Network.neuron_positions 20 (375 # 100) = inr (xs, ys)
    /\ length xs = 20%nat /\ length ys = 20%nat.
Proof.
  destruct (proj2 (neuron_positions_on_lattice 20 (375 # 100)) ltac:(lia) ltac:(reflexivity))
    as (xs & ys & Heq & Hlx & Hly & _).
  exists xs, ys. split; [exact Heq|]. split; [exact Hlx | exact Hly].
Defined.
